(** * Glimmer VM: opcode builder and rehydration

    A shallow embedding of
    [packages/@glimmer/runtime/lib/compiled/opcodes/builder.ts]
    (classes [Labels], [BasicOpcodeBuilder], [OpcodeBuilder]) and of the
    rehydration behaviour exercised by the rehydration test suite.

    Conventions.
    - JavaScript numbers that the builder handles are offsets, handles,
      counters and flags; they are modelled at their integral values as [Z],
      with [NaN] kept apart because [undefined - 4] produces it.
    - The builder is a mutable object whose methods may throw; methods are
      functions in a state-and-exception monad [M] whose exceptional outcome
      keeps the state reached when the exception was raised. *)

From Stdlib Require Import ZArith Lia.
From stdpp Require Import base strings gmap list.

Set Warnings "-register-all".

Local Open Scope string_scope.
Local Open Scope list_scope.
Local Open Scope Z_scope.

(** ** JavaScript values *)

Module Js.

(** A JavaScript number, at integral values, or NaN. *)
Inductive number : Type :=
| Int (z : Z)
| NaN.

(** The values a caller can hand to [primitive] once types are erased. *)
Inductive value : Type :=
| VNumber (n : number)
| VString (s : string)
| VBoolean (b : bool)
| VNull
| VUndefined
| VObject        (* any non-null object *)
| VFunction
| VSymbol.

(** The result of the [typeof] operator. *)
Inductive type_tag : Type :=
| TNumber | TString | TBoolean | TObject | TUndefined | TFunction | TSymbol.

Definition typeof (v : value) : type_tag :=
  match v with
  | VNumber _ => TNumber
  | VString _ => TString
  | VBoolean _ => TBoolean
  | VNull => TObject
  | VObject => TObject
  | VUndefined => TUndefined
  | VFunction => TFunction
  | VSymbol => TSymbol
  end.

(** Wrap-around to a signed 32-bit integer. *)
Definition wrap32 (z : Z) : Z := (z + 2 ^ 31) mod 2 ^ 32 - 2 ^ 31.

Definition ToInt32 (n : number) : Z :=
  match n with
  | Int z => wrap32 z
  | NaN => 0
  end.

(** [a << k] *)
Definition shl (a : number) (k : Z) : number :=
  Int (wrap32 (Z.shiftl (ToInt32 a) (k mod 32))).

(** [a | b] *)
Definition bitor (a b : number) : number :=
  Int (wrap32 (Z.lor (ToInt32 a) (ToInt32 b))).

(** [b | 0] on a boolean *)
Definition of_bool (b : bool) : number := Int (if b then 1 else 0).

(** [x - 4] where [x] is a dictionary lookup: [undefined - 4] is NaN. *)
Definition minus4 (x : option Z) : number :=
  match x with
  | Some z => Int (z - 4)
  | None => NaN
  end.

(** An argument received by a parameter declared with [= 0]: the default
    replaces a missing or [undefined] argument. *)
Definition default0 (x : option number) : number :=
  match x with
  | Some n => n
  | None => Int 0
  end.

End Js.

(** ** Opcodes *)

Module Op.

(** The members of the [Op] enumeration that [builder.ts] names. *)
Inductive t : Type :=
| ReserveLocals | ReleaseLocals
| PushComponentManager | PushDynamicComponentManager | SetComponentState
| PushComponentArgs | CreateComponent | RegisterComponentDestructor
| BeginComponentTransaction | CommitComponentTransaction
| PushComponentOperations | GetComponentSelf | GetComponentLayout
| DidCreateElement | DidRenderLayout
| GetPartialTemplate | ResolveMaybeLocal
| DynamicContent
| Text | OpenElement | OpenElementWithOperations | OpenDynamicElement
| FlushElement | CloseElement | StaticAttr | DynamicAttrNS | DynamicAttr
| Comment | Modifier
| PutIterator | EnterList | ExitList | Iterate
| Self | SetVariable | GetVariable | GetProperty | GetBlock | HasBlock
| HasBlockParams | Concat | Function | SetLocal | GetLocal | Pop
| PushRemoteElement | PopRemoteElement
| BindSelf | RootScope | ChildScope | PopScope
| PushDynamicScope | PopDynamicScope | PushReifiedArgs
| Constant | Primitive | Helper | PushBlock | PushBlocks
| BindDynamicScope | BindPositionalArgs | BindNamedArgs | BindBlocks
| Enter | Exit | CompileDynamicBlock | InvokeDynamic | InvokeStatic
| ToBoolean | Jump | JumpIf | JumpUnless.

End Op.

(** ** The program buffer *)

Module Program.

(** One element of the instruction array: an opcode, an operand, or a hole
    left by a write past the end. *)
Inductive cell : Type :=
| COp (op : Op.t)
| CNum (n : Js.number)
| CHole.

(** [a[i] = v] on a JavaScript array: an index inside the array replaces
    the element, an index at or past the end extends the array (leaving
    holes), a negative index sets a property and leaves the elements alone. *)
Definition array_set (a : list cell) (i : Z) (v : cell) : list cell :=
  if i <? 0 then a
  else
    let n := Z.to_nat i in
    if (n <? length a)%nat then <[n := v]> a
    else a ++ replicate (n - length a) CHole ++ [v].

(** Modelled from the spec: the program buffer, class [Program] of
    [environment.ts], which is not among the sources. The spec describes a
    linear stream of fixed-width instructions, an opcode and up to three
    operands, append-only and position-addressable; the builder's [- 4]
    fixes the width at four cells. Operands left out default to 0, as in
    the builder's own [push]. *)
Abbreviation t := (list cell).

(** Modelled from the spec: [Program.next], the position the next
    instruction will take. *)
Definition next (p : t) : Z := Z.of_nat (length p).

(** Modelled from the spec: [Program.current], the position of the last
    instruction, one instruction width before [next]. *)
Definition current (p : t) : Z := Z.of_nat (length p) - 4.

(** Modelled from the spec: [Program.push] appends one instruction and
    returns its position. *)
Definition push (p : t) (type : Op.t) (op1 op2 op3 : Js.number) : Z * t :=
  (Z.of_nat (length p), p ++ [COp type; CNum op1; CNum op2; CNum op3]).

(** Modelled from the spec: [Program.set] overwrites the instruction at a
    position; an operand that is missing or [undefined] is 0. *)
Definition set (p : t) (pos : Z) (type : Op.t)
    (op1 op2 op3 : option Js.number) : t :=
  let p := array_set p pos (COp type) in
  let p := array_set p (pos + 1) (CNum (Js.default0 op1)) in
  let p := array_set p (pos + 2) (CNum (Js.default0 op2)) in
  array_set p (pos + 3) (CNum (Js.default0 op3)).

(** Read the cell at a position. *)
Definition get (p : t) (pos : Z) : option cell :=
  if pos <? 0 then None else p !! Z.to_nat pos.

(** The four cells of the instruction at a position. *)
Definition instruction (p : t) (pos : Z) : list (option cell) :=
  [get p pos; get p (pos + 1); get p (pos + 2); get p (pos + 3)].

End Program.

(** ** Utilities of [@glimmer/util] *)

Module Util.

(** Modelled from the spec: [Stack] of [@glimmer/util], not among the
    sources: a stack of nested label scopes, pushed on entering a
    construct and popped on leaving. The top is the head of the list;
    [current] and [pop] give [null] (here [None]) on an empty stack. *)
Definition Stack (A : Type) : Type := list A.

(** Modelled from the spec: [Stack.current], the innermost open scope. *)
Definition Stack_current {A} (s : Stack A) : option A := head s.

(** Modelled from the spec: [Stack.push], entering a scope. *)
Definition Stack_push {A} (s : Stack A) (item : A) : Stack A := item :: s.

(** Modelled from the spec: [Stack.pop], leaving a scope: the scope left,
    or [null] when none was open. *)
Definition Stack_pop {A} (s : Stack A) : option A * Stack A :=
  match s with
  | [] => (None, [])
  | item :: rest => (Some item, rest)
  end.

End Util.

(** ** State and exceptions *)

Section Monad.

Context {S : Type}.

(** How a method call ends: normally with a value, or by throwing an
    [Error] with a message; either way the object is left in a state. *)
Inductive Completion (A : Type) : Type :=
| Normal (a : A) (s : S)
| Throw (msg : string) (s : S).

Global Arguments Normal {A} a s.
Global Arguments Throw {A} msg s.

Definition M (A : Type) : Type := S → Completion A.

Definition ret {A} (a : A) : M A := λ s, Normal a s.

Definition bind {A B} (m : M A) (k : A → M B) : M B :=
  λ s, match m s with
       | Normal a s' => k a s'
       | Throw msg s' => Throw msg s'
       end.

Definition throw {A} (msg : string) : M A := λ s, Throw msg s.

Definition get_state : M S := λ s, Normal s s.

Definition modify (f : S → S) : M unit := λ s, Normal tt (f s).

(** Modelled from the spec: [expect(val, message)] of [@glimmer/util], not
    among the sources. The spec makes an unbalanced label scope a fatal
    fault: the value is returned, or an [Error] with the message is thrown
    when it is [null]. *)
Definition expect {A} (val : option A) (message : string) : M A :=
  match val with
  | Some a => ret a
  | None => throw message
  end.

Definition state_of {A} (c : Completion A) : S :=
  match c with
  | Normal _ s => s
  | Throw _ s => s
  end.

End Monad.

Global Arguments Completion : clear implicits.
Global Arguments M : clear implicits.

Notation "'let*' x := m 'in' k" := (bind m (λ x, k))
  (at level 10, x name, m at level 100, k at level 200).
Notation "m ;;; k" := (bind m (λ _, k))
  (at level 100, k at level 200, right associativity).

Coercion Js.Int : Z >-> Js.number.

(** ** Label bookkeeping: class [Labels] *)

Module Labels.

Record JumpSite : Type := mkJump
  { j_at : Z; j_target : string; j_Target : Op.t }.

Record RangeSite : Type := mkRange
  { r_at : Z; r_start : string; r_end : string; r_Range : Op.t }.

Record IterSite : Type := mkIter
  { i_at : Z; i_breaks : string; i_start : string; i_end : string }.

(** The [labels] dictionary ([dict<number>()]) is a finite map from label
    names to offsets; the three arrays keep their order. *)
Record t : Type := mk
  { labels : gmap string Z;
    jumps : list JumpSite;
    ranges : list RangeSite;
    iters : list IterSite }.

(** [new Labels()] *)
Definition new : t :=
  {| labels := ∅; jumps := []; ranges := []; iters := [] |}.

Definition label (l : t) (name : string) (index : Z) : t :=
  {| labels := <[name := index]> (labels l);
     jumps := jumps l; ranges := ranges l; iters := iters l |}.

Definition iter (l : t) (at_ : Z) (breaks start end_ : string) : t :=
  {| labels := labels l; jumps := jumps l; ranges := ranges l;
     iters := iters l ++ [mkIter at_ breaks start end_] |}.

Definition jump (l : t) (at_ : Z) (Target : Op.t) (target : string) : t :=
  {| labels := labels l;
     jumps := jumps l ++ [mkJump at_ target Target];
     ranges := ranges l; iters := iters l |}.

Definition range (l : t) (at_ : Z) (Range : Op.t) (start end_ : string) : t :=
  {| labels := labels l; jumps := jumps l;
     ranges := ranges l ++ [mkRange at_ start end_ Range];
     iters := iters l |}.

(** [this.labels[name]] as an argument: a number, or [undefined]. *)
Definition lookup_arg (l : t) (name : string) : option Js.number :=
  Js.Int <$> labels l !! name.

Definition patch_jump (l : t) (opcodes : Program.t) (j : JumpSite) : Program.t :=
  Program.set opcodes (j_at j) (j_Target j)
    (lookup_arg l (j_target j)) None None.

Definition patch_range (l : t) (opcodes : Program.t) (r : RangeSite) : Program.t :=
  Program.set opcodes (r_at r) (r_Range r)
    (lookup_arg l (r_start r))
    (Some (Js.minus4 (labels l !! r_end r))) None.

Definition patch_iter (l : t) (opcodes : Program.t) (i : IterSite) : Program.t :=
  Program.set opcodes (i_at i) Op.Iterate
    (lookup_arg l (i_breaks i))
    (lookup_arg l (i_start i))
    (Some (Js.minus4 (labels l !! i_end i))).

(** The three loops of [patch], one after the other. *)
Definition patch (l : t) (opcodes : Program.t) : Program.t :=
  let opcodes := foldl (patch_jump l) opcodes (jumps l) in
  let opcodes := foldl (patch_range l) opcodes (ranges l) in
  foldl (patch_iter l) opcodes (iters l).

(** Every position at which this scope recorded an instruction to patch. *)
Definition sites (l : t) : list Z :=
  (j_at <$> jumps l) ++ (r_at <$> ranges l) ++ (i_at <$> iters l).

End Labels.

(** ** The constant pool *)

(** The values the modelled methods hand to [constants.other]: a
    [Dict<number>] of argument slots and a [new InvokeDynamicLayout(attrs,
    names)]. *)
Inductive Opaque (Block : Type) : Type :=
| ODict (d : gmap string Z)
| OInvokeDynamicLayout (attrs : option Block) (names : list string).

Global Arguments ODict {Block} d.
Global Arguments OInvokeDynamicLayout {Block} attrs names.

(** The constant pool ([Constants] of [opcodes.ts]) is not among the
    sources; the builder only obtains handles from it, so the pool is an
    interface: interning a value gives a handle and the pool after the call.
    Handle 0 stands for [null]. *)
Class ConstantPool (Constants Block : Type) : Type :=
  { constants_string : Constants → string → Z * Constants;
    constants_block : Constants → Block → Z * Constants;
    constants_other : Constants → Opaque Block → Z * Constants }.

(** ** The opcode builder: classes [BasicOpcodeBuilder] and [OpcodeBuilder] *)

Section Builder.

Context {Constants Block : Type} `{!ConstantPool Constants Block}.
Context {RawInlineBlock Hash Params : Type}.
(** [attrs.scan()] *)
Variable scan : RawInlineBlock → Block.

Record BasicOpcodeBuilder : Type := mkBuilder
  { labelsStack : Util.Stack Labels.t;
    constants : Constants;
    start : Z;
    locals : Z;
    _localsSize : Z;
    program : Program.t }.

Definition with_labelsStack (s : Util.Stack Labels.t) (b : BasicOpcodeBuilder) :=
  mkBuilder s (constants b) (start b) (locals b) (_localsSize b) (program b).
Definition with_constants (c : Constants) (b : BasicOpcodeBuilder) :=
  mkBuilder (labelsStack b) c (start b) (locals b) (_localsSize b) (program b).
Definition with_locals (n : Z) (b : BasicOpcodeBuilder) :=
  mkBuilder (labelsStack b) (constants b) (start b) n (_localsSize b) (program b).
Definition with_localsSize (n : Z) (b : BasicOpcodeBuilder) :=
  mkBuilder (labelsStack b) (constants b) (start b) (locals b) n (program b).
Definition with_program (p : Program.t) (b : BasicOpcodeBuilder) :=
  mkBuilder (labelsStack b) (constants b) (start b) (locals b) (_localsSize b) p.

Abbreviation B := (M BasicOpcodeBuilder).

Definition push (name : Op.t) (op1 op2 op3 : Js.number) : B Z :=
  λ b, let '(offset, p) := Program.push (program b) name op1 op2 op3 in
       Normal offset (with_program p b).

Definition reserve (name : Op.t) : B unit :=
  push name 0 0 0 ;;; ret tt.

(** [constructor(env, meta, program)], with [env.constants] and the
    program the builder appends to. *)
Definition constructor (env_constants : Constants) (program0 : Program.t)
  : Completion BasicOpcodeBuilder unit :=
  reserve Op.ReserveLocals
    {| labelsStack := [];
       constants := env_constants;
       start := Program.next program0;
       locals := 0;
       _localsSize := 0;
       program := program0 |}.

Definition pos : B Z := λ b, Normal (Program.current (program b)) b.

Definition nextPos : B Z := λ b, Normal (Program.next (program b)) b.

Definition local : B Z :=
  λ b, let locals0 := locals b in
       let b := with_locals (locals b + 1) b in
       let b := if _localsSize b <? locals b
                then with_localsSize (locals b) b else b in
       Normal locals0 b.

Definition releaseLocal : B unit :=
  modify (λ b, with_locals (locals b - 1) b).

Definition localsSize : B Z := λ b, Normal (_localsSize b) b.

Definition finalize : B Z :=
  let* size := localsSize in
  modify (λ b, with_program
    (Program.set (program b) (start b) Op.ReserveLocals (Some (Js.Int size)) None None) b) ;;;
  push Op.ReleaseLocals 0 0 0.

(** *** Label scopes *)

(** The [labels] getter. *)
Definition labels : B Labels.t :=
  let* b := get_state in
  expect (Util.Stack_current (labelsStack b)) "bug: not in a label stack".

(** A method call on the object the getter returned: the scope on top of
    the stack is the one that changes. *)
Definition update_labels (f : Labels.t → Labels.t) : B unit :=
  modify (λ b, with_labelsStack
    (match labelsStack b with
     | [] => []
     | l :: rest => f l :: rest
     end) b).

Definition startLabels : B unit :=
  modify (λ b, with_labelsStack (Util.Stack_push (labelsStack b) Labels.new) b).

Definition Stack_pop_labels : B (option Labels.t) :=
  λ b, let '(item, rest) := Util.Stack_pop (labelsStack b) in
       Normal item (with_labelsStack rest b).

Definition stopLabels : B unit :=
  let* popped := Stack_pop_labels in
  let* label := expect popped "unbalanced push and pop labels" in
  modify (λ b, with_program (Labels.patch label (program b)) b).

Definition label (name : string) : B unit :=
  let* _ := labels in
  let* index := nextPos in
  update_labels (λ l, Labels.label l name index).

Definition record_jump (Target : Op.t) (target : string) : B unit :=
  reserve Target ;;;
  let* _ := labels in
  let* at_ := pos in
  update_labels (λ l, Labels.jump l at_ Target target).

Definition jump (target : string) : B unit := record_jump Op.Jump target.
Definition jumpIf (target : string) : B unit := record_jump Op.JumpIf target.
Definition jumpUnless (target : string) : B unit := record_jump Op.JumpUnless target.

Definition enterList (start_ end_ : string) : B unit :=
  reserve Op.EnterList ;;;
  let* _ := labels in
  let* at_ := pos in
  update_labels (λ l, Labels.range l at_ Op.EnterList start_ end_).

Definition exitList : B unit := push Op.ExitList 0 0 0 ;;; ret tt.

Definition iterate (breaks start_ end_ : string) : B unit :=
  reserve Op.Iterate ;;;
  let* _ := labels in
  let* at_ := pos in
  update_labels (λ l, Labels.iter l at_ breaks start_ end_).

Definition enter (enter_ exit_ : string) : B unit :=
  reserve Op.Enter ;;;
  let* _ := labels in
  let* at_ := pos in
  update_labels (λ l, Labels.range l at_ Op.Enter enter_ exit_).

Definition exit : B unit := push Op.Exit 0 0 0 ;;; ret tt.

(** *** Constants *)

Definition intern {A} (f : Constants → A → Z * Constants) (a : A) : B Z :=
  λ b, let interned := f (constants b) a in
       Normal interned.1 (with_constants interned.2 b).

Definition string_ (s : string) : B Z := intern constants_string s.

Definition other (value : Opaque Block) : B Z := intern constants_other value.

Definition block (blk : option Block) : B Z :=
  match blk with
  | Some b => intern constants_block b
  | None => ret 0
  end.

(** *** Primitives *)

Definition primitive (_primitive : Js.value) : B unit :=
  let* encoded :=
    match Js.typeof _primitive, _primitive with
    | Js.TNumber, Js.VNumber n => ret (Js.Int 0, n)
    | Js.TString, Js.VString s =>
        let* handle := string_ s in ret (Js.Int 1, Js.Int handle)
    | Js.TBoolean, Js.VBoolean v => ret (Js.Int 2, Js.of_bool v)
    | Js.TObject, _ => ret (Js.Int 2, Js.Int 2)
    | Js.TUndefined, _ => ret (Js.Int 2, Js.Int 3)
    | _, _ => throw "Invalid primitive passed to pushPrimitive"
    end in
  let '(flag, value) := encoded in
  push Op.Primitive (Js.bitor (Js.shl flag 30) value) 0 0 ;;; ret tt.

(** *** Components *)

Definition setComponentState (local_ : Z) : B unit :=
  push Op.SetComponentState local_ 0 0 ;;; ret tt.

Definition pushComponentArgs (positional named : Z) (namedDict : gmap string Z)
  : B unit :=
  let* handle := intern constants_other (ODict namedDict) in
  push Op.PushComponentArgs positional named handle ;;; ret tt.

Definition createComponent (state : Z) (hasDefault hasInverse : bool) : B unit :=
  let flag := Js.bitor (Js.of_bool hasDefault) (Js.shl (Js.of_bool hasInverse) 1) in
  push Op.CreateComponent flag state 0 ;;; ret tt.

Definition registerComponentDestructor (state : Z) : B unit :=
  push Op.RegisterComponentDestructor state 0 0 ;;; ret tt.

Definition beginComponentTransaction : B unit :=
  push Op.BeginComponentTransaction 0 0 0 ;;; ret tt.

Definition commitComponentTransaction : B unit :=
  push Op.CommitComponentTransaction 0 0 0 ;;; ret tt.

Definition getComponentSelf (state : Z) : B unit :=
  push Op.GetComponentSelf state 0 0 ;;; ret tt.

Definition getComponentLayout (state : Z) : B unit :=
  push Op.GetComponentLayout state 0 0 ;;; ret tt.

Definition didCreateElement (state : Z) : B unit :=
  push Op.DidCreateElement state 0 0 ;;; ret tt.

Definition didRenderLayout (state : Z) : B unit :=
  push Op.DidRenderLayout state 0 0 ;;; ret tt.

Definition popScope : B unit := push Op.PopScope 0 0 0 ;;; ret tt.

Definition pushDynamicScope : B unit := push Op.PushDynamicScope 0 0 0 ;;; ret tt.

Definition popDynamicScope : B unit := push Op.PopDynamicScope 0 0 0 ;;; ret tt.

Definition pushBlock (blk : option Block) : B unit :=
  let* handle := block blk in
  push Op.PushBlock handle 0 0 ;;; ret tt.

Definition invokeDynamic (invoker : Opaque Block) : B unit :=
  let* handle := other invoker in
  push Op.InvokeDynamic handle 0 0 ;;; ret tt.

(** The result of [compileComponentArgs]. *)
Record ComponentArgs : Type := mkArgs
  { slots : gmap string Z; count : Z; names : list string }.

(** [compileComponentArgs(hash, builder)] of [syntax/functions.ts] is not
    among the sources: it compiles the named arguments with the builder it
    is given and describes them. *)
Variable compileComponentArgs : option Hash → B ComponentArgs.

Definition invokeComponent (attrs : option RawInlineBlock)
    (_params : option Params) (hash : option Hash)
    (blk inverse : option Block) : B unit :=
  let* state := local in
  setComponentState state ;;;
  pushBlock blk ;;;
  pushBlock inverse ;;;
  let* args := compileComponentArgs hash in
  pushDynamicScope ;;;
  pushComponentArgs 0 (count args) (slots args) ;;;
  createComponent state true false ;;;
  registerComponentDestructor state ;;;
  beginComponentTransaction ;;;
  getComponentSelf state ;;;
  getComponentLayout state ;;;
  invokeDynamic (OInvokeDynamicLayout (scan <$> attrs) (names args)) ;;;
  didCreateElement state ;;;
  didRenderLayout state ;;;
  popScope ;;;
  popDynamicScope ;;;
  commitComponentTransaction ;;;
  releaseLocal.

(** *** Structural helpers *)

Definition BlockCallback : Type := string → string → B unit.

Definition labelled (callback : BlockCallback) : B unit :=
  startLabels ;;;
  enter "BEGIN" "END" ;;;
  label "BEGIN" ;;;
  callback "BEGIN" "END" ;;;
  label "END" ;;;
  exit ;;;
  stopLabels.

Definition iter (callback : BlockCallback) : B unit :=
  startLabels ;;;
  enterList "BEGIN" "END" ;;;
  label "ITER" ;;;
  iterate "BREAK" "BEGIN" "END" ;;;
  label "BEGIN" ;;;
  callback "BEGIN" "END" ;;;
  label "END" ;;;
  exit ;;;
  jump "ITER" ;;;
  label "BREAK" ;;;
  exitList ;;;
  stopLabels.

Definition unit_ (callback : B unit) : B unit :=
  startLabels ;;;
  callback ;;;
  stopLabels.

(** *** Compilations as sequences of builder calls *)

(** A call a compiler makes on the builder. *)
Inductive Call : Type :=
| CallLocal
| CallReleaseLocal
| CallPush (name : Op.t) (op1 op2 op3 : Js.number)
| CallStartLabels
| CallStopLabels
| CallLabel (name : string)
| CallJump (target : string)
| CallJumpIf (target : string)
| CallJumpUnless (target : string)
| CallEnter (enter_ exit_ : string)
| CallExit
| CallEnterList (start_ end_ : string)
| CallExitList
| CallIterate (breaks start_ end_ : string)
| CallPrimitive (v : Js.value).

Definition perform (c : Call) : B unit :=
  match c with
  | CallLocal => local ;;; ret tt
  | CallReleaseLocal => releaseLocal
  | CallPush name op1 op2 op3 => push name op1 op2 op3 ;;; ret tt
  | CallStartLabels => startLabels
  | CallStopLabels => stopLabels
  | CallLabel name => label name
  | CallJump target => jump target
  | CallJumpIf target => jumpIf target
  | CallJumpUnless target => jumpUnless target
  | CallEnter a b => enter a b
  | CallExit => exit
  | CallEnterList a b => enterList a b
  | CallExitList => exitList
  | CallIterate a b c => iterate a b c
  | CallPrimitive v => primitive v
  end.

Fixpoint perform_all (cs : list Call) : B unit :=
  match cs with
  | [] => ret tt
  | c :: cs => perform c ;;; perform_all cs
  end.

(** A compilation: construct the builder on a program, then make the
    calls. *)
Definition compilation (env_constants : Constants) (program0 : Program.t)
    (cs : list Call) : Completion BasicOpcodeBuilder unit :=
  match constructor env_constants program0 with
  | Normal _ b => perform_all cs b
  | Throw msg b => Throw msg b
  end.

(** The locals allocated and not yet released after a sequence of calls. *)
Fixpoint live (cs : list Call) : Z :=
  match cs with
  | [] => 0
  | CallLocal :: cs => 1 + live cs
  | CallReleaseLocal :: cs => live cs - 1
  | _ :: cs => live cs
  end.

Fixpoint prefixes {A} (l : list A) : list (list A) :=
  [] :: match l with
        | [] => []
        | x :: l => (x ::.) <$> prefixes l
        end.

(** The register high-water mark of a compilation, in the spec's words:
    the maximum number of simultaneously allocated locals over the whole
    compilation, that is over every point the sequence of calls reaches. *)
Definition high_water_mark (cs : list Call) : Z :=
  foldr Z.max 0 (live <$> prefixes cs).

End Builder.

Global Arguments BasicOpcodeBuilder Constants : clear implicits.

(** *** Reading a [Primitive] operand

    The operand is a 32-bit word: a type tag in the two top bits and a
    payload in the thirty bits below. *)

Definition operand_tag (w : Z) : Z := Z.land (Z.shiftr w 30) 3.

Definition operand_payload (w : Z) : Z := Z.land w (Z.ones 30).

(** [primitive] on a value appends one [Primitive] instruction whose
    operand reads as the given flag and payload. *)
Definition emits_primitive `{!ConstantPool Constants Block}
    (b : BasicOpcodeBuilder Constants) (v : Js.value) (flag payload : Z) : Prop :=
  ∃ w b',
    primitive v b = Normal tt b' ∧
    program b' = program b ++
      [Program.COp Op.Primitive; Program.CNum (Js.Int w);
       Program.CNum 0; Program.CNum 0] ∧
    operand_tag w = flag ∧ operand_payload w = payload.

(** *** Label scopes a patch can resolve

    Recorded instructions do not overlap: any two recorded positions are at
    least one instruction width apart. *)

Fixpoint separated (l : list Z) : Prop :=
  match l with
  | [] => True
  | a :: l => Forall (λ b, 4 ≤ Z.abs (b - a)) l ∧ separated l
  end.

(** Every recorded position is an instruction of a program of the given
    size, and no two of them overlap. *)
Definition patchable (l : Labels.t) (size : Z) : Prop :=
  Forall (λ a, 0 ≤ a ∧ a + 4 ≤ size) (Labels.sites l) ∧
  separated (Labels.sites l).

(** What [patch] writes for a jump, a range and an iteration. *)
Definition jump_written (l : Labels.t) (j : Labels.JumpSite) : list (option Program.cell) :=
  [Some (Program.COp (Labels.j_Target j));
   Some (Program.CNum (Js.default0 (Labels.lookup_arg l (Labels.j_target j))));
   Some (Program.CNum 0); Some (Program.CNum 0)].

Definition range_written (l : Labels.t) (r : Labels.RangeSite) : list (option Program.cell) :=
  [Some (Program.COp (Labels.r_Range r));
   Some (Program.CNum (Js.default0 (Labels.lookup_arg l (Labels.r_start r))));
   Some (Program.CNum (Js.minus4 (Labels.labels l !! Labels.r_end r)));
   Some (Program.CNum 0)].

Definition iter_written (l : Labels.t) (i : Labels.IterSite) : list (option Program.cell) :=
  [Some (Program.COp Op.Iterate);
   Some (Program.CNum (Js.default0 (Labels.lookup_arg l (Labels.i_breaks i))));
   Some (Program.CNum (Js.default0 (Labels.lookup_arg l (Labels.i_start i))));
   Some (Program.CNum (Js.minus4 (Labels.labels l !! Labels.i_end i)))].

(** Every open label scope of a builder can be patched in its program. *)
Definition scopes_patchable {Constants} (b : BasicOpcodeBuilder Constants) : Prop :=
  Forall (λ l, patchable l (Program.next (program b))) (labelsStack b).

(** *** A constant pool *)

Module ListPool.

(** Modelled from the spec: the constant pool, [Constants] of [opcodes.ts],
    not among the sources: deduplicated storage indexed by small integer
    handles, identical content yielding the same handle. Handles count from
    1, 0 being [null]; blocks are named by strings. *)
Record t : Type := mk
  { strings : list string;
    blocks : list string;
    others : list (Opaque string) }.

Definition empty : t := {| strings := []; blocks := []; others := [] |}.

(** The position of a value already stored. *)
Fixpoint index_of `{EqDecision A} (a : A) (l : list A) : option nat :=
  match l with
  | [] => None
  | x :: l => if decide (x = a) then Some 0%nat else S <$> index_of a l
  end.

(** Modelled from the spec: identical content yields the same handle, new
    content the next handle. *)
Definition intern_in `{EqDecision A} (l : list A) (a : A) : Z * list A :=
  match index_of a l with
  | Some i => (Z.of_nat i + 1, l)
  | None => (Z.of_nat (length l) + 1, l ++ [a])
  end.

Global Instance Opaque_eq_dec : EqDecision (Opaque string).
Proof. solve_decision. Defined.

(** Modelled from the spec: strings, blocks and opaque values are each
    interned in their own table. *)
Global Instance pool : ConstantPool t string :=
  {| constants_string c s :=
       let '(h, l) := intern_in (strings c) s in
       (h, {| strings := l; blocks := blocks c; others := others c |});
     constants_block c b :=
       let '(h, l) := intern_in (blocks c) b in
       (h, {| strings := strings c; blocks := l; others := others c |});
     constants_other c o :=
       let '(h, l) := intern_in (others c) o in
       (h, {| strings := strings c; blocks := blocks c; others := l |}) |}.

End ListPool.

(** ** More builder methods *)

Section MoreMethods.

Context {Constants Block : Type} `{!ConstantPool Constants Block}.

(** [_block.symbolTable.parameters]: the symbols of a block's parameters.
    Blocks are not among the sources. *)
Variable parameters : Block → list Z.

(** [constants.array(values)]; the pool is not among the sources. *)
Variable constants_array : Constants → list Z → Z * Constants.

Abbreviation B := (M (BasicOpcodeBuilder Constants)).

Definition pop : B Z := push Op.Pop 0 0 0.

Definition pushChildScope : B unit := push Op.ChildScope 0 0 0 ;;; ret tt.

Definition setVariable (symbol : Z) : B unit :=
  push Op.SetVariable symbol 0 0 ;;; ret tt.

(** The arguments of [invokeStatic] after the block: callbacks that compile
    the arguments, or one number, the count of arguments already on the
    stack. *)
Inductive StaticArgs : Type :=
| ArgCallbacks (args : list (B unit))
| ArgCount (numArgs : Z).

(** [for (let i = 0; i < excess; i++) this.pop()] *)
Fixpoint pop_excess (excess : nat) : B unit :=
  match excess with
  | O => ret tt
  | S n => pop ;;; pop_excess n
  end.

(** [for (let i = argSize - 1; i >= 0; i--)]: the callback of argument [i],
    unless the arguments are on the stack, then [setVariable(parameters[i])].
    An index past the callbacks calls [undefined], a [TypeError]; an index
    past the parameters gives [undefined], which [push] defaults to 0. *)
Fixpoint bind_arguments (callbacks : option (list (B unit))) (params : list Z)
    (argSize : nat) : B unit :=
  match argSize with
  | O => ret tt
  | S i =>
      match callbacks with
      | None => ret tt
      | Some args =>
          match args !! i with
          | Some compile_argument => compile_argument
          | None => throw "TypeError: arguments[i + 1] is not a function"
          end
      end ;;;
      setVariable (default 0 (params !! i)) ;;;
      bind_arguments callbacks params i
  end.

Definition invokeStatic (_block : Block) (args : StaticArgs) : B unit :=
  let params := parameters _block in
  let paramSize := Z.of_nat (length params) in
  let '(argSize, excess, callbacks) :=
    match args with
    | ArgCount numArgs =>
        (Z.min paramSize numArgs, Z.max (numArgs - paramSize) 0, None)
    | ArgCallbacks fs =>
        (Z.min paramSize (Z.of_nat (length fs)), 0, Some fs)
    end in
  pop_excess (Z.to_nat excess) ;;;
  (if decide (argSize = 0) then ret tt
   else pushChildScope ;;; bind_arguments callbacks params (Z.to_nat argSize)) ;;;
  let* blk := intern constants_block _block in
  push Op.InvokeStatic blk 0 0 ;;;
  (if decide (argSize = 0) then ret tt else popScope).

Definition pushBlocks (_default inverse : option Block) : B unit :=
  let flag : Js.number := 0 in
  let* first :=
    match _default with
    | Some _ => let* handle := block _default in ret (Js.bitor flag 1, handle)
    | None => ret (flag, 0)
    end in
  let* second :=
    match inverse with
    | Some _ => let* handle := block inverse in ret (Js.bitor first.1 2, handle)
    | None => ret (first.1, 0)
    end in
  push Op.PushBlocks first.2 second.2 second.1 ;;; ret tt.

(** [_names.map(n => this.constants.string(n))] *)
Fixpoint intern_names (_names : list string) : B (list Z) :=
  match _names with
  | [] => ret []
  | n :: rest =>
      let* handle := string_ n in
      let* handles := intern_names rest in
      ret (handle :: handles)
  end.

Definition names_ (_names : list string) : B Z :=
  let* handles := intern_names _names in
  intern constants_array handles.

Definition pushReifiedArgs (positional : Z) (_names : list string)
    (hasDefault hasInverse : bool) : B unit :=
  let* names := names_ _names in
  let flag : Js.number := 0 in
  let flag := if hasDefault then Js.bitor flag 1 else flag in
  let flag := if hasInverse then Js.bitor flag 2 else flag in
  push Op.PushReifiedArgs positional names flag ;;; ret tt.

End MoreMethods.

(** The four cells of an instruction. *)
Definition instr (op : Op.t) (op1 op2 op3 : Js.number) : list Program.cell :=
  [Program.COp op; Program.CNum op1; Program.CNum op2; Program.CNum op3].

(** The calls that need an open label scope. *)
Definition needs_scope (c : Call) : bool :=
  match c with
  | CallStopLabels | CallLabel _ | CallJump _ | CallJumpIf _ | CallJumpUnless _
  | CallEnter _ _ | CallEnterList _ _ | CallIterate _ _ _ => true
  | _ => false
  end.

(** The calls that push an instruction before they look for the scope. *)
Definition reserves_first (c : Call) : bool :=
  match c with
  | CallJump _ | CallJumpIf _ | CallJumpUnless _
  | CallEnter _ _ | CallEnterList _ _ | CallIterate _ _ _ => true
  | _ => false
  end.

(** The primitives whose [typeof] no case of [primitive] accepts. *)
Definition invalid_primitive (c : Call) : bool :=
  match c with
  | CallPrimitive Js.VFunction | CallPrimitive Js.VSymbol => true
  | _ => false
  end.

(** The values [primitive] encodes without the constant pool, each encoded
    apart from the others: integers of thirty bits, booleans, [null] and
    [undefined]. *)
Definition plain_primitive (v : Js.value) : bool :=
  match v with
  | Js.VNumber (Js.Int n) => (0 <=? n) && (n <? 2 ^ 30)
  | Js.VBoolean _ | Js.VNull | Js.VUndefined => true
  | _ => false
  end.

(** Label offsets and recorded positions of a scope lie on instruction
    boundaries of the compilation unit: after the reserved slot, not past
    the end of the program, a whole number of instructions from the start. *)
Definition on_boundary (start size offset : Z) : Prop :=
  start < offset ≤ size ∧ (offset - start) `mod` 4 = 0.

Definition scope_on_boundaries (start size : Z) (l : Labels.t) : Prop :=
  map_Forall (λ _ offset, on_boundary start size offset) (Labels.labels l) ∧
  Forall (λ a, on_boundary start size a ∧ a < size) (Labels.sites l).

(** The state of a compilation as far as positions go: the reserved slot is
    in the program, the program after [start] is a whole number of
    instructions, and every open scope is patchable and on boundaries. *)
Definition well_placed {Constants} (b : BasicOpcodeBuilder Constants) : Prop :=
  start b + 4 ≤ Program.next (program b) ∧
  (Program.next (program b) - start b) `mod` 4 = 0 ∧
  scopes_patchable b ∧
  Forall (scope_on_boundaries (start b) (Program.next (program b))) (labelsStack b).

(** The calls a callback of [labelled] or [iter] makes when it neither
    opens nor closes a scope, places none of the labels the helper has
    placed for it, and passes [primitive] a value it accepts. *)
Definition straight (names : list string) (c : Call) : bool :=
  match c with
  | CallStartLabels | CallStopLabels => false
  | CallLabel name => bool_decide (name ∉ names)
  | CallPrimitive _ => negb (invalid_primitive c)
  | _ => true
  end.

(** An instruction as [reserve] leaves it: the opcode and three zeros. *)
Definition placeholder (p : Program.t) (at_ : Z) (op : Op.t) : Prop :=
  Program.instruction p at_ = Some <$> instr op 0 0 0.

(** Every instruction a scope recorded is still the placeholder it was
    reserved as. *)
Definition scope_reserved (p : Program.t) (l : Labels.t) : Prop :=
  Forall (λ j, placeholder p (Labels.j_at j) (Labels.j_Target j)) (Labels.jumps l) ∧
  Forall (λ r, placeholder p (Labels.r_at r) (Labels.r_Range r)) (Labels.ranges l) ∧
  Forall (λ i, placeholder p (Labels.i_at i) Op.Iterate) (Labels.iters l).

(** The positions recorded by the open scopes, innermost scope first. *)
Definition all_sites (stack : Util.Stack Labels.t) : list Z :=
  concat (Labels.sites <$> stack).

(** The open scopes of a builder claim instructions of its program, no
    instruction twice, and each is still a placeholder. *)
Definition scopes_reserved {Constants} (b : BasicOpcodeBuilder Constants) : Prop :=
  scopes_patchable b ∧
  separated (all_sites (labelsStack b)) ∧
  Forall (scope_reserved (program b)) (labelsStack b).




(** ** Example compilations *)

Module Examples.

(** A builder on an empty program and an empty pool. *)
Definition fresh : BasicOpcodeBuilder ListPool.t :=
  Eval vm_compute in state_of (constructor ListPool.empty []).

(** The scope a builder has open. *)
Definition open_scope (b : BasicOpcodeBuilder ListPool.t) : Labels.t :=
  default Labels.new (head (labelsStack b)).

(** A compilation that leaves one label scope open, shaped like the body
    of an iteration. *)
Definition loop_calls : list Call :=
  [CallStartLabels;
   CallEnterList "BEGIN" "END";
   CallLabel "ITER";
   CallIterate "BREAK" "BEGIN" "END";
   CallLabel "BEGIN";
   CallPush Op.Text 1 0 0;
   CallLabel "END";
   CallExit;
   CallJump "ITER";
   CallLabel "BREAK";
   CallExitList].

Definition loop_builder : BasicOpcodeBuilder ListPool.t :=
  Eval vm_compute in state_of (compilation ListPool.empty [] loop_calls).

Definition loop_scope : Labels.t := Eval vm_compute in open_scope loop_builder.

(** A compilation whose open scope refers to labels that are never placed. *)
Definition dangling_calls : list Call :=
  [CallStartLabels;
   CallJump "MISSING";
   CallEnter "BEGIN" "NOWHERE";
   CallIterate "BREAK" "BEGIN" "NOWHERE";
   CallLabel "BEGIN"].

Definition dangling_builder : BasicOpcodeBuilder ListPool.t :=
  Eval vm_compute in state_of (compilation ListPool.empty [] dangling_calls).

Definition dangling_scope : Labels.t :=
  Eval vm_compute in open_scope dangling_builder.

(** Locals taken and released without pairing. *)
Definition locals_calls : list Call :=
  [CallLocal; CallLocal; CallReleaseLocal; CallLocal; CallLocal;
   CallReleaseLocal; CallReleaseLocal; CallReleaseLocal; CallReleaseLocal].

Definition locals_builder : BasicOpcodeBuilder ListPool.t :=
  Eval vm_compute in state_of (compilation ListPool.empty [] locals_calls).

(** The builder a jump leaves behind when no scope is open. *)
Definition faulted : BasicOpcodeBuilder ListPool.t :=
  Eval vm_compute in state_of (perform (CallJump "END") fresh).

(** The calls of a callback that compiles a conditional: it places a
    label of its own and jumps to the one its helper placed. *)
Definition body_calls : list Call :=
  [CallJumpUnless "ELSE"; CallPush Op.Text 1 0 0; CallJump "END";
   CallLabel "ELSE"; CallPush Op.Text 2 0 0].

(** A compilation that closes an inner scope while the outer scope has a
    jump waiting for its label. *)
Definition nested_calls : list Call :=
  [CallStartLabels; CallJump "OUT";
   CallStartLabels; CallJumpIf "IN"; CallLabel "IN"; CallPush Op.Text 1 0 0;
   CallStopLabels;
   CallEnter "OUT" "OUT"].

Definition nested_builder : BasicOpcodeBuilder ListPool.t :=
  Eval vm_compute in state_of (compilation ListPool.empty [] nested_calls).

(** A component invoked without named arguments. *)
Definition no_arguments (hash : option unit)
  : M (BasicOpcodeBuilder ListPool.t) ComponentArgs :=
  ret (mkArgs ∅ 0 []).

End Examples.


(** ** Rendering and rehydration

    The tree builders and the VM that drives them are not among the
    sources; the rehydration test suite is. The model below follows the
    spec's description of the two tree-building strategies and of the marker
    protocol, and the server output and the statistics the tests record. *)

Module Dom.

(** Modelled from the spec: the identity of a node; the document API is
    not among the sources. A node the document held before the render pass
    at hand is known by its place in document order; a node the pass
    creates is new. *)
Inductive identity : Type :=
| Existing (k : nat)
| New.

(** The text of a comment node: a comment of the template, or one of the
    reserved comments of the marker protocol, whose text cannot collide with
    user content: the start and the end marker of a dynamic region, with the
    nesting depth of the region, and the placeholder that stands for an
    empty text node, which serialised HTML cannot hold. *)
Inductive comment : Type :=
| Plain (value : string)
| BlockOpen (depth : nat)
| BlockClose (depth : nat)
| Empty.

(** Modelled from the spec: a node of the rendered tree. An element's
    attributes are a map from names to values. *)
Inductive node : Type :=
| Text (id : identity) (value : string)
| Comment (id : identity) (text : comment)
| Element (id : identity) (tag : string) (attrs : gmap string string)
    (children : list node).

Definition is_start (n : node) : bool :=
  match n with
  | Comment _ (BlockOpen _) => true
  | _ => false
  end.

(** The end marker of a region of the given depth. *)
Definition is_end (depth : nat) (n : node) : bool :=
  match n with
  | Comment _ (BlockClose d) => Nat.eqb d depth
  | _ => false
  end.

Definition is_row (n : node) : bool :=
  match n with
  | Element _ tag _ _ => String.eqb tag "tr"
  | _ => false
  end.

(** Modelled from the spec: the HTML tree-construction rule of scenario A,
    at a table: a row directly under a table is wrapped in an implied
    [tbody], which holds the first such row and what follows it in the
    table. HTML parsing is not among the sources. *)
Fixpoint imply_tbody (l : list node) : list node :=
  match l with
  | [] => []
  | n :: rest =>
      if is_row n then [Element New "tbody" ∅ (n :: rest)]
      else n :: imply_tbody rest
  end.

Fixpoint tree_construction (n : node) : node :=
  match n with
  | Element id tag attrs children =>
      let children := map tree_construction children in
      Element id tag attrs
        (if String.eqb tag "table" then imply_tbody children else children)
  | n => n
  end.

(** Items in order, threading a counter. *)
Definition in_order {A} (f : A → nat → A * nat) : list A → nat → list A * nat :=
  fix go (l : list A) (k : nat) :=
    match l with
    | [] => ([], k)
    | a :: l =>
        let '(a', k1) := f a k in
        let '(l', k2) := go l k1 in
        (a' :: l', k2)
    end.

(** The nodes of a tree named in document order. *)
Fixpoint number (n : node) (k : nat) {struct n} : node * nat :=
  match n with
  | Text _ value => (Text (Existing k) value, S k)
  | Comment _ text => (Comment (Existing k) text, S k)
  | Element _ tag attrs children =>
      let '(children', k') := in_order number children (S k) in
      (Element (Existing k) tag attrs children', k')
  end.

(** Modelled from the spec: the document a client holds once it has parsed
    serialised output: every node is an existing node. *)
Definition parsed (l : list node) : list node := (in_order number l 0%nat).1.

(** Tag, attributes and text of a tree: the tree without the identity of
    its nodes and without block markers; the placeholder reads as the empty
    text node it stands for. *)
Fixpoint structure (n : node) : list node :=
  match n with
  | Text _ value => [Text New value]
  | Comment _ (Plain value) => [Comment New (Plain value)]
  | Comment _ (BlockOpen _) | Comment _ (BlockClose _) => []
  | Comment _ Empty => [Text New ""]
  | Element _ tag attrs children =>
      [Element New tag attrs (flat_map structure children)]
  end.


(** A tree without the identity of its nodes. *)
Fixpoint shape (n : node) : node :=
  match n with
  | Text _ value => Text New value
  | Comment _ text => Comment New text
  | Element _ tag attrs children => Element New tag attrs (map shape children)
  end.



(** The nodes of a tree that are new, with those below them. *)
Fixpoint created (n : node) : list node :=
  match n with
  | Text New _ | Comment New _ => [n]
  | Element New _ _ children => n :: flat_map created children
  | Element (Existing _) _ _ children => flat_map created children
  | _ => []
  end.

End Dom.

Module Template.

(** A value of the data context. *)
Inductive value : Type :=
| VString (s : string)
| VBoolean (b : bool)
| VList (items : list value).

Abbreviation context := (gmap string value).

Inductive attribute : Type :=
| StaticAttr (name value : string)
| DynamicAttr (name key : string).

(** Modelled from the spec: the structural description of a template unit,
    a sequence of content, element and control-flow nodes; the template
    front-end is not among the sources. *)
Inductive t : Type :=
| TText (s : string)
| TComment (s : string)
| TContent (key : string)
| TElement (tag : string) (attrs : list attribute) (body : list t)
| TIf (key : string) (then_ else_ : list t)
| TEach (key item : string) (body : list t)
| TComponent (tag : string) (args : list (string * string)) (layout : list t).

Fixpoint join (sep : string) (l : list string) : string :=
  match l with
  | [] => ""
  | [s] => s
  | s :: l => s +:+ sep +:+ join sep l
  end.

Fixpoint to_text (v : value) : string :=
  match v with
  | VString s => s
  | VBoolean true => "true"
  | VBoolean false => "false"
  | VList items => join "," (map to_text items)
  end.

(** A missing key reads as [undefined]: empty text, falsy, no items. *)
Definition content_text (v : option value) : string :=
  match v with
  | Some v => to_text v
  | None => ""
  end.

Definition truthy (v : option value) : bool :=
  match v with
  | Some (VString s) => negb (String.eqb s "")
  | Some (VBoolean b) => b
  | Some (VList items) => negb (Nat.eqb (length items) 0)
  | None => false
  end.

Definition items_of (v : option value) : list value :=
  match v with
  | Some (VList items) => items
  | _ => []
  end.

End Template.

Module Render.

Import Dom Template.

(** Modelled from the spec: what one render pass asks of the tree builder,
    in order: append a text node, append a comment, build an element with
    its attributes and content, or render a dynamic region (a block). The
    builders' common interface is not among the sources. *)
Inductive request : Type :=
| RText (value : string)
| RComment (value : string)
| RElement (tag : string) (attrs : list (string * string)) (body : list request)
| RBlock (body : list request).

Definition attribute_value (ctx : context) (a : attribute) : string * string :=
  match a with
  | StaticAttr name value => (name, value)
  | DynamicAttr name key => (name, content_text (ctx !! key))
  end.

(** A region that renders nothing holds an empty comment. *)
Definition or_placeholder (rs : list request) : list request :=
  match rs with
  | [] => [RComment ""]
  | _ => rs
  end.

(** Modelled from the spec: the arguments of a component invocation: the
    argument [@name] is bound to what the caller's context holds at the
    key it is passed. Component lookup and argument binding are not among
    the sources. *)
Definition arguments (ctx : context) (args : list (string * string)) : context :=
  foldr (λ a m, match ctx !! a.2 with
                | Some v => <["@" +:+ a.1 := v]> m
                | None => m
                end) ∅ args.

(** Modelled from the spec: executing a template against a context, as far
    as the tree builder sees it. The compiler front-end, the VM and value
    resolution are not among the sources. Dynamic content, conditionals
    and keyed lists are dynamic regions; a list is one region holding one
    region per item, as in the server output the tests record. A component
    invocation is a region holding the component's element, whose content
    is the layout executed against the arguments, as the tests find the
    server output of a component. *)
Fixpoint execute (ctx : context) (t : Template.t) {struct t} : list request :=
  match t with
  | TText s => [RText s]
  | TComment s => [RComment s]
  | TContent key => [RBlock [RText (content_text (ctx !! key))]]
  | TElement tag attrs body =>
      [RElement tag (attribute_value ctx <$> attrs) (flat_map (execute ctx) body)]
  | TIf key then_ else_ =>
      [RBlock (or_placeholder
         (if truthy (ctx !! key)
          then flat_map (execute ctx) then_
          else flat_map (execute ctx) else_))]
  | TEach key item body =>
      match items_of (ctx !! key) with
      | [] => [RBlock [RComment ""]]
      | items =>
          [RBlock [RBlock
             (map (λ v, RBlock (flat_map (execute (<[item := v]> ctx)) body)) items)]]
      end
  | TComponent tag args layout =>
      [RBlock [RElement tag [] (flat_map (execute (arguments ctx args)) layout)]]
  end.

(** A template unit renders as one region. *)
Definition render (template : list Template.t) (ctx : context) : list request :=
  [RBlock (flat_map (execute ctx) template)].

(** [setAttribute] for each attribute in turn. *)
Definition set_attributes (attrs : list (string * string))
    (m : gmap string string) : gmap string string :=
  foldl (λ m a, <[a.1 := a.2]> m) m attrs.

(** Modelled from the spec: the Create strategy; the tree builders are not
    among the sources. Every request allocates a new node through the
    document API and appends it. In a pass whose output will be serialised
    and rehydrated every dynamic region is wrapped in a pair of block
    markers carrying its nesting depth, and an empty text is written as the
    reserved placeholder, as the tests record the server output. *)
Fixpoint create (markers : bool) (depth : nat) (r : request) {struct r} : list node :=
  match r with
  | RText value =>
      if markers && String.eqb value "" then [Comment New Empty]
      else [Text New value]
  | RComment value => [Comment New (Plain value)]
  | RElement tag attrs body =>
      [Element New tag (set_attributes attrs ∅) (flat_map (create markers depth) body)]
  | RBlock body =>
      if markers
      then Comment New (BlockOpen depth) :: flat_map (create markers (S depth)) body
             ++ [Comment New (BlockClose depth)]
      else flat_map (create markers (S depth)) body
  end.

(** Modelled from the spec: the output of the server pass as HTML tree
    construction reads it: the tree the pass built, with the implied
    [tbody] of scenario A. *)
Definition Create_serialized (template : list Template.t) (ctx : context) : list node :=
  map tree_construction (flat_map (create true 0) (render template ctx)).


End Render.

Module Rehydrate.

Import Dom Render.

(** Modelled from the spec: the cursor of the Rehydrate strategy: whether
    rehydration is still under way in the region, and the existing nodes
    from the current position to the end of the parent. *)
Record cursor : Type := mkCursor
  { rehydrating : bool; siblings : list node }.

(** What a request leaves in the tree at the insertion point: a node,
    adopted or created, or the step into a [tbody] found in the existing
    tree, which stays where it is with the nodes that follow it and takes
    what the enclosing element has left to render. *)
Inductive emitted : Type :=
| Emit (n : node)
| Descend (id : identity) (attrs : gmap string string) (tail : list node).

(** The children of a parent from what was emitted in it, and from the
    existing nodes left where the cursor stopped. *)
Fixpoint assemble (out : list emitted) (left : list node) : list node :=
  match out with
  | [] => left
  | Emit n :: out => n :: assemble out left
  | Descend id attrs tail :: out =>
      Element id "tbody" attrs (assemble out left) :: tail
  end.

(** Modelled from the spec: the nodes-removed statistic lists the removed
    nodes, and the tests compare its length. The tests expect one removed
    node where an element and the comments around it are cleared: comments,
    and with them the block markers, are removed without being listed. *)
Definition counted (n : node) : bool :=
  match n with
  | Comment _ _ => false
  | _ => true
  end.

Definition cleared (l : list node) : list node := List.filter counted l.

(** Modelled from the spec: the node at the cursor does not match: it is
    removed and listed, and rehydration is abandoned up to the end of the
    enclosing region. An end marker is left for the close of its region. *)
Definition mismatch (n : node) (rest : list node) : cursor * list node :=
  match n with
  | Comment _ (BlockClose _) => (mkCursor false (n :: rest), [])
  | _ => (mkCursor false rest, cleared [n])
  end.

(** Modelled from the spec: leaving a region: what remains before its end
    marker is a stale remainder, removed in one sweep; the cursor ends past
    the marker. *)
Fixpoint sweep (depth : nat) (l : list node) : list node * list node :=
  match l with
  | [] => ([], [])
  | n :: rest =>
      if is_end depth n then ([], rest)
      else let '(gone, after) := sweep depth rest in (cleared [n] ++ gone, after)
  end.

(** Modelled from the spec: adopting an element repairs its attributes:
    each attribute of the render is set on it, and the attributes it
    carried that the render did not match are removed. *)
Definition repair_attributes (existing : gmap string string)
    (attrs : list (string * string)) : gmap string string :=
  let unmatched : gset string := dom existing ∖ list_to_set attrs.*1 in
  filter (λ kv, kv.1 ∉ unmatched) (set_attributes attrs existing).

(** Modelled from the spec: the [tbody] of scenario A is in the existing
    tree and not in the render: a request for another element that finds a
    [tbody] at the cursor steps into it, and goes on at its first child. The
    tests expect the [tbody] kept and nothing removed. *)
Definition step_into (tag : string) (l : list node) : list emitted * list node :=
  match l with
  | Element id tag' attrs children :: rest =>
      if String.eqb tag' "tbody" && negb (String.eqb tag "tbody")
      then ([Descend id attrs rest], children)
      else ([], l)
  | _ => ([], l)
  end.

(** Requests in sequence, threading the cursor and collecting what was
    emitted and what was removed. *)
Definition in_sequence {A} (f : A → cursor → list emitted * cursor * list node)
  : list A → cursor → list emitted * cursor * list node :=
  fix go (rs : list A) (c : cursor) :=
    match rs with
    | [] => ([], c, [])
    | r :: rs =>
        let '(out1, c1, gone1) := f r c in
        let '(out2, c2, gone2) := go rs c1 in
        (out1 ++ out2, c2, gone1 ++ gone2)
    end.

(** Modelled from the spec: the Rehydrate strategy; the tree builders are
    not among the sources. Each request first asks whether the node at the
    cursor matches: a match adopts the node, which keeps its identity,
    repairs its value or attributes and advances; a mismatch removes the
    node, lists it and creates from there to the end of the enclosing
    region; with no node at the cursor the request creates. A text request
    that finds the placeholder of an empty text puts a text node in its
    place. Adopted block markers are consumed. Leaving an adopted element
    removes what is left of its content. The result is what the request
    leaves in the tree, the cursor after it and the nodes removed. *)
Fixpoint rehydrate_request (depth : nat) (r : request) (c : cursor) {struct r}
  : list emitted * cursor * list node :=
  match r with
  | RText value =>
      if rehydrating c then
        match siblings c with
        | Text id _ :: rest => ([Emit (Text id value)], mkCursor true rest, [])
        | Comment _ Empty :: rest => ([Emit (Text New value)], mkCursor true rest, [])
        | n :: rest =>
            let '(c', gone) := mismatch n rest in ([Emit (Text New value)], c', gone)
        | [] => ([Emit (Text New value)], c, [])
        end
      else ([Emit (Text New value)], c, [])
  | RComment value =>
      if rehydrating c then
        match siblings c with
        | Comment id (Plain _) :: rest =>
            ([Emit (Comment id (Plain value))], mkCursor true rest, [])
        | n :: rest =>
            let '(c', gone) := mismatch n rest in
            ([Emit (Comment New (Plain value))], c', gone)
        | [] => ([Emit (Comment New (Plain value))], c, [])
        end
      else ([Emit (Comment New (Plain value))], c, [])
  | RElement tag attrs body =>
      let new_element :=
        let '(out, _, _) :=
          in_sequence (rehydrate_request depth) body (mkCursor false []) in
        Emit (Element New tag (set_attributes attrs ∅) (assemble out [])) in
      if rehydrating c then
        let '(descent, candidates) := step_into tag (siblings c) in
        match candidates with
        | Element id tag' existing children :: rest =>
            if String.eqb tag' tag then
              let '(out, c1, gone) :=
                in_sequence (rehydrate_request depth) body (mkCursor true children) in
              (descent ++
                 [Emit (Element id tag (repair_attributes existing attrs)
                          (assemble out []))],
               mkCursor true rest,
               gone ++ cleared (siblings c1))
            else
              let '(c', gone) := mismatch (Element id tag' existing children) rest in
              (descent ++ [new_element], c', gone)
        | n :: rest =>
            let '(c', gone) := mismatch n rest in
            (descent ++ [new_element], c', gone)
        | [] => (descent ++ [new_element], mkCursor true [], [])
        end
      else ([new_element], c, [])
  | RBlock body =>
      if rehydrating c then
        match siblings c with
        | Comment id (BlockOpen d) :: rest =>
            if Nat.eqb d depth then
              let '(out, c1, gone1) :=
                in_sequence (rehydrate_request (S depth)) body (mkCursor true rest) in
              let '(gone2, after) := sweep depth (siblings c1) in
              (out, mkCursor true after, gone1 ++ gone2)
            else
              let '(c', gone) := mismatch (Comment id (BlockOpen d)) rest in
              let '(out, c1, gone1) :=
                in_sequence (rehydrate_request (S depth)) body c' in
              (out, c1, gone ++ gone1)
        | n :: rest =>
            let '(c', gone) := mismatch n rest in
            let '(out, c1, gone1) :=
              in_sequence (rehydrate_request (S depth)) body c' in
            (out, c1, gone ++ gone1)
        | [] => in_sequence (rehydrate_request (S depth)) body c
        end
      else in_sequence (rehydrate_request (S depth)) body c
  end.

(** Modelled from the spec: where a rehydrating pass starts: at the first
    start marker among the children of the root; what the root holds before
    it was there before the server rendered and is left alone, as the tests
    expect of content that was in the root. *)
Fixpoint before_start (l : list node) : list node * list node :=
  match l with
  | [] => ([], [])
  | n :: rest =>
      if is_start n then ([], l)
      else let '(before, candidates) := before_start rest in (n :: before, candidates)
  end.

(** Modelled from the spec: a rehydrating render pass over the existing
    content of the root: the final content of the root and the nodes
    removed. The root is not an element the pass leaves: what follows the
    cursor when the pass ends stays. *)
Definition rehydrate_pass (rs : list request) (existing : list node)
  : list node * list node :=
  let '(before, candidates) := before_start existing in
  let '(out, c, gone) :=
    in_sequence (rehydrate_request 0) rs (mkCursor true candidates) in
  (before ++ assemble out (siblings c), gone).

(** Rehydrating a template against a context over existing content. *)
Definition Rehydrate (template : list Template.t) (ctx : Template.context)
    (existing : list node) : list node * list node :=
  rehydrate_pass (render template ctx) existing.

End Rehydrate.

(** * Properties *)

(** ** The program buffer *)

Section ProgramFacts.

Import Program.

Lemma array_set_length_ge a i v : (length a ≤ length (array_set a i v))%nat.
Proof.
  unfold array_set. destruct (i <? 0); [done|].
  destruct (Nat.ltb_spec (Z.to_nat i) (length a)).
  - by rewrite length_insert.
  - rewrite length_app. lia.
Qed.

Lemma get_array_set_eq a i v : 0 ≤ i → get (array_set a i v) i = Some v.
Proof.
  intros Hi. unfold get, array_set.
  destruct (Z.ltb_spec i 0); [lia|].
  destruct (Nat.ltb_spec (Z.to_nat i) (length a)).
  - by apply list_lookup_insert_eq.
  - rewrite lookup_app_r by lia.
    rewrite lookup_app_r; rewrite length_replicate; [|lia].
    by replace (Z.to_nat i - length a - (Z.to_nat i - length a))%nat with 0%nat by lia.
Qed.

Lemma get_array_set_ne a i j v :
  i ≠ j → 0 ≤ j < Z.of_nat (length a) → get (array_set a i v) j = get a j.
Proof.
  intros Hne Hj. unfold get, array_set.
  destruct (Z.ltb_spec j 0); [lia|].
  destruct (Z.ltb_spec i 0); [done|].
  destruct (Nat.ltb_spec (Z.to_nat i) (length a)).
  - apply list_lookup_insert_ne. lia.
  - apply lookup_app_l. lia.
Qed.

Lemma array_set_length_in a i v :
  0 ≤ i < Z.of_nat (length a) → length (array_set a i v) = length a.
Proof.
  intros Hi. unfold array_set.
  destruct (Z.ltb_spec i 0); [lia|].
  destruct (Nat.ltb_spec (Z.to_nat i) (length a)); [|lia].
  by rewrite length_insert.
Qed.

Lemma set_length_in p pos type op1 op2 op3 :
  0 ≤ pos → pos + 4 ≤ Z.of_nat (length p) →
  length (set p pos type op1 op2 op3) = length p.
Proof.
  intros H0 H4. unfold set.
  assert (L1 : length (array_set p pos (COp type)) = length p)
    by (apply array_set_length_in; lia).
  assert (L2 : length (array_set (array_set p pos (COp type)) (pos + 1)
                 (CNum (Js.default0 op1))) = length p)
    by (rewrite array_set_length_in; lia).
  assert (L3 : length (array_set (array_set (array_set p pos (COp type)) (pos + 1)
                 (CNum (Js.default0 op1))) (pos + 2) (CNum (Js.default0 op2))) = length p)
    by (rewrite array_set_length_in; lia).
  rewrite array_set_length_in; lia.
Qed.

Lemma set_length_ge p pos type op1 op2 op3 :
  (length p ≤ length (set p pos type op1 op2 op3))%nat.
Proof.
  unfold set.
  repeat (etrans; [|apply array_set_length_ge]). done.
Qed.

Lemma get_lt p pos c : get p pos = Some c → 0 ≤ pos < Z.of_nat (length p).
Proof.
  unfold get. destruct (Z.ltb_spec pos 0); [done|].
  intros Hc%lookup_lt_Some. lia.
Qed.

Lemma get_array_set_keep a i j v c :
  i ≠ j → get a j = Some c → get (array_set a i v) j = Some c.
Proof.
  intros Hne Hget. rewrite get_array_set_ne; [done..|].
  by apply get_lt in Hget.
Qed.

(** Writing an instruction and reading it back. *)
Lemma instruction_set_eq p pos type op1 op2 op3 :
  0 ≤ pos →
  instruction (set p pos type op1 op2 op3) pos =
    [Some (COp type); Some (CNum (Js.default0 op1));
     Some (CNum (Js.default0 op2)); Some (CNum (Js.default0 op3))].
Proof.
  intros Hpos. unfold instruction, set.
  repeat f_equal.
  - do 3 (apply get_array_set_keep; [lia|]). by apply get_array_set_eq.
  - do 2 (apply get_array_set_keep; [lia|]). apply get_array_set_eq; lia.
  - apply get_array_set_keep; [lia|]. apply get_array_set_eq; lia.
  - apply get_array_set_eq; lia.
Qed.

(** Writing an instruction leaves the cells of an instruction that lies
    four or more cells away as they were. *)
Lemma instruction_set_ne p pos type op1 op2 op3 a :
  0 ≤ a → a + 4 ≤ Z.of_nat (length p) → 4 ≤ Z.abs (pos - a) →
  instruction (set p pos type op1 op2 op3) a = instruction p a.
Proof.
  intros Ha Hlen Hsep. unfold instruction, set.
  set (p1 := array_set p pos (COp type)).
  set (p2 := array_set p1 (pos + 1) _).
  set (p3 := array_set p2 (pos + 2) _).
  pose proof (array_set_length_ge p pos (COp type)) as G1.
  pose proof (array_set_length_ge p1 (pos + 1) (CNum (Js.default0 op1))) as G2.
  pose proof (array_set_length_ge p2 (pos + 2) (CNum (Js.default0 op2))) as G3.
  fold p1 in G1. fold p2 in G2. fold p3 in G3.
  assert (∀ k, 0 ≤ k < 4 →
    get (array_set p3 (pos + 3) (CNum (Js.default0 op3))) (a + k) = get p (a + k)) as Hk.
  { intros k Hk.
    rewrite get_array_set_ne by lia.
    unfold p3. rewrite get_array_set_ne by lia.
    unfold p2. rewrite get_array_set_ne by lia.
    unfold p1. rewrite get_array_set_ne by lia. done. }
  rewrite <- (Z.add_0_r a) at 1 5.
  by rewrite !Hk by lia.
Qed.

Lemma get_app_l p q i : i < Z.of_nat (length p) → get (p ++ q) i = get p i.
Proof.
  intros Hi. unfold get. destruct (Z.ltb_spec i 0); [done|].
  apply lookup_app_l. lia.
Qed.

(** Appending leaves the instructions of the program as they were. *)
Lemma instruction_app_l p q a :
  a + 4 ≤ Z.of_nat (length p) → instruction (p ++ q) a = instruction p a.
Proof.
  intros Ha. unfold instruction. by rewrite !get_app_l by lia.
Qed.

(** The instruction just pushed. *)
Lemma instruction_pushed p c1 c2 c3 c4 :
  instruction (p ++ [c1; c2; c3; c4]) (next p) = [Some c1; Some c2; Some c3; Some c4].
Proof.
  unfold instruction, get, next.
  rewrite !(proj2 (Z.ltb_ge _ 0)) by lia.
  rewrite !lookup_app_r by lia.
  replace (Z.to_nat (Z.of_nat (length p)) - length p)%nat with 0%nat by lia.
  replace (Z.to_nat (Z.of_nat (length p) + 1) - length p)%nat with 1%nat by lia.
  replace (Z.to_nat (Z.of_nat (length p) + 2) - length p)%nat with 2%nat by lia.
  replace (Z.to_nat (Z.of_nat (length p) + 3) - length p)%nat with 3%nat by lia.
  done.
Qed.

End ProgramFacts.

(** ** Patching a label scope *)

Section PatchFacts.

Import Program.

Lemma separated_later l1 a l2 :
  separated (l1 ++ a :: l2) → Forall (λ b, 4 ≤ Z.abs (b - a)) l2.
Proof.
  induction l1 as [|x l1 IH]; simpl; intros [Hx Hsep]; [done|]. by apply IH.
Qed.

Lemma separated_insert l1 a l2 :
  separated (l1 ++ l2) → Forall (λ b, 4 ≤ Z.abs (b - a)) (l1 ++ l2) →
  separated (l1 ++ a :: l2).
Proof.
  induction l1 as [|x l1 IH]; simpl.
  - by intros Hsep Hall.
  - intros [Hx Hsep] Hall. apply Forall_cons in Hall as [Hxa Hall]. split.
    + apply Forall_app in Hx as [Hx1 Hx2].
      apply Forall_app. split; [done|]. apply Forall_cons. split; [lia|done].
    + by apply IH.
Qed.

(** A loop of [patch]: a fold of single writes. *)
Section Loop.

Context {A : Type} (f : Program.t → A → Program.t) (at_of : A → Z)
  (written : A → list (option cell)).
Hypothesis f_length : ∀ p x, (length p ≤ length (f p x))%nat.
Hypothesis f_other : ∀ p x a,
  0 ≤ a → a + 4 ≤ Z.of_nat (length p) → 4 ≤ Z.abs (at_of x - a) →
  instruction (f p x) a = instruction p a.
Hypothesis f_written : ∀ p x,
  0 ≤ at_of x → instruction (f p x) (at_of x) = written x.
Hypothesis written_cells : ∀ x, Forall is_Some (written x).

Lemma loop_length xs p : (length p ≤ length (foldl f p xs))%nat.
Proof.
  revert p. induction xs as [|x xs IH]; intros p; simpl; [done|].
  etrans; [apply (f_length p x)|apply IH].
Qed.

Lemma loop_other xs p a :
  0 ≤ a → a + 4 ≤ Z.of_nat (length p) →
  Forall (λ x, 4 ≤ Z.abs (at_of x - a)) xs →
  instruction (foldl f p xs) a = instruction p a.
Proof.
  intros Ha. revert p. induction xs as [|x xs IH]; intros p Hlen Hall; simpl; [done|].
  apply Forall_cons in Hall as [Hx Hall].
  rewrite IH; [by apply f_other| |done].
  pose proof (f_length p x). lia.
Qed.

Lemma instruction_in_program p a :
  Forall is_Some (instruction p a) → a + 4 ≤ Z.of_nat (length p).
Proof.
  unfold instruction. intros H.
  apply Forall_cons in H as [_ H]. apply Forall_cons in H as [_ H].
  apply Forall_cons in H as [_ H]. apply Forall_cons in H as [[c H] _].
  apply get_lt in H. lia.
Qed.

Lemma loop_written l1 x l2 p :
  0 ≤ at_of x →
  Forall (λ y, 4 ≤ Z.abs (at_of y - at_of x)) l2 →
  instruction (foldl f p (l1 ++ x :: l2)) (at_of x) = written x.
Proof.
  intros Hx Hsep. rewrite foldl_app. simpl.
  rewrite loop_other; [by apply f_written|done| |done].
  apply instruction_in_program. rewrite f_written by done. apply written_cells.
Qed.

End Loop.

Lemma patch_jump_length l p j : (length p ≤ length (Labels.patch_jump l p j))%nat.
Proof. apply set_length_ge. Qed.

Lemma patch_range_length l p r : (length p ≤ length (Labels.patch_range l p r))%nat.
Proof. apply set_length_ge. Qed.

Lemma patch_iter_length l p i : (length p ≤ length (Labels.patch_iter l p i))%nat.
Proof. apply set_length_ge. Qed.

Lemma patch_length l p : (length p ≤ length (Labels.patch l p))%nat.
Proof.
  unfold Labels.patch.
  etrans; [|apply loop_length, patch_iter_length].
  etrans; [|apply loop_length, patch_range_length].
  apply loop_length, patch_jump_length.
Qed.

Lemma patched_jump l size p j :
  patchable l size → j ∈ Labels.jumps l →
  instruction (Labels.patch l p) (Labels.j_at j) = jump_written l j.
Proof.
  intros [Hin Hsep] Hj.
  apply list_elem_of_split in Hj as (j1 & j2 & Hj).
  unfold Labels.sites in *.
  rewrite Hj, fmap_app, fmap_cons, <- app_assoc, <- app_comm_cons in Hsep, Hin.
  apply separated_later in Hsep.
  apply Forall_app in Hin as [_ Hin]. apply Forall_cons in Hin as [[H0 _] _].
  apply Forall_app in Hsep as [Hjs Hsep]. apply Forall_app in Hsep as [Hrs His].
  rewrite Forall_fmap in Hjs. rewrite Forall_fmap in Hrs. rewrite Forall_fmap in His.
  assert (Hw : ∀ q, instruction (foldl (Labels.patch_jump l) q (Labels.jumps l))
                      (Labels.j_at j) = jump_written l j).
  { intros q. rewrite Hj.
    apply (loop_written (Labels.patch_jump l) Labels.j_at (jump_written l)); try done.
    - apply patch_jump_length.
    - intros. by apply instruction_set_ne.
    - intros. by apply instruction_set_eq.
    - intros x. unfold jump_written. repeat constructor; eauto. }
  unfold Labels.patch.
  rewrite (loop_other (Labels.patch_iter l) Labels.i_at); try done.
  - rewrite (loop_other (Labels.patch_range l) Labels.r_at); try done.
    + apply patch_range_length.
    + intros. by apply instruction_set_ne.
    + apply instruction_in_program. rewrite Hw.
      unfold jump_written. repeat constructor; eauto.
  - apply patch_iter_length.
  - intros. by apply instruction_set_ne.
  - etrans; [|apply inj_le, loop_length, patch_range_length].
    apply instruction_in_program. rewrite Hw.
    unfold jump_written. repeat constructor; eauto.
Qed.

Lemma patched_range l size p r :
  patchable l size → r ∈ Labels.ranges l →
  instruction (Labels.patch l p) (Labels.r_at r) = range_written l r.
Proof.
  intros [Hin Hsep] Hr.
  apply list_elem_of_split in Hr as (r1 & r2 & Hr).
  unfold Labels.sites in *.
  rewrite Hr, fmap_app, fmap_cons, <- (app_assoc (Labels.r_at <$> r1)),
    <- app_comm_cons, app_assoc in Hsep, Hin.
  apply separated_later in Hsep.
  apply Forall_app in Hin as [_ Hin]. apply Forall_cons in Hin as [[H0 _] _].
  apply Forall_app in Hsep as [Hrs His].
  rewrite Forall_fmap in Hrs. rewrite Forall_fmap in His.
  assert (Hw : ∀ q, instruction (foldl (Labels.patch_range l) q (Labels.ranges l))
                      (Labels.r_at r) = range_written l r).
  { intros q. rewrite Hr.
    apply (loop_written (Labels.patch_range l) Labels.r_at (range_written l)); try done.
    - apply patch_range_length.
    - intros. by apply instruction_set_ne.
    - intros. by apply instruction_set_eq.
    - intros x. unfold range_written. repeat constructor; eauto. }
  unfold Labels.patch.
  rewrite (loop_other (Labels.patch_iter l) Labels.i_at); try done.
  - apply patch_iter_length.
  - intros. by apply instruction_set_ne.
  - apply instruction_in_program. rewrite Hw.
    unfold range_written. repeat constructor; eauto.
Qed.

Lemma patched_iter l size p i :
  patchable l size → i ∈ Labels.iters l →
  instruction (Labels.patch l p) (Labels.i_at i) = iter_written l i.
Proof.
  intros [Hin Hsep] Hi.
  apply list_elem_of_split in Hi as (i1 & i2 & Hi).
  unfold Labels.sites in *.
  rewrite Hi, fmap_app, fmap_cons, !app_assoc in Hsep, Hin.
  apply separated_later in Hsep.
  apply Forall_app in Hin as [_ Hin]. apply Forall_cons in Hin as [[H0 _] _].
  rewrite Forall_fmap in Hsep.
  unfold Labels.patch. rewrite Hi.
  apply (loop_written (Labels.patch_iter l) Labels.i_at (iter_written l)); try done.
  - apply patch_iter_length.
  - intros. by apply instruction_set_ne.
  - intros. by apply instruction_set_eq.
  - intros x. unfold iter_written. repeat constructor; eauto.
Qed.

End PatchFacts.

(** ** Packing a primitive operand *)

Section Packing.

Lemma land_tag_payload k p :
  0 ≤ p < 2 ^ 30 → Z.land (k * 2 ^ 30) p = 0.
Proof.
  intros Hp. apply Z.bits_inj'. intros m Hm.
  rewrite Z.land_spec, Z.bits_0.
  destruct (Z.lt_ge_cases m 30) as [Hlt|Hge].
  - by rewrite Z.mul_pow2_bits_low.
  - destruct (Z.eq_dec p 0) as [-> | Hne]; [by rewrite Z.bits_0, andb_false_r|].
    rewrite (Z.bits_above_log2 p m), andb_false_r; [done|lia|].
    apply Z.log2_lt_pow2; [lia|].
    eapply Z.lt_le_trans; [apply Hp|]. apply Z.pow_le_mono_r; lia.
Qed.

Lemma lor_tag_payload k p :
  0 ≤ p < 2 ^ 30 → Z.lor (k * 2 ^ 30) p = k * 2 ^ 30 + p.
Proof.
  intros Hp. pose proof (Z.add_lor_land (k * 2 ^ 30) p) as H.
  rewrite land_tag_payload in H by done. lia.
Qed.

(** [(flag << 30) | payload] for the three flags the builder uses and a
    payload of thirty bits: the flag is read back from the two top bits and
    the payload from the rest. *)
Lemma pack_tag_payload (flag p : Z) :
  0 ≤ flag ≤ 2 → 0 ≤ p < 2 ^ 30 →
  ∃ w, Js.bitor (Js.shl flag 30) p = Js.Int w ∧
       operand_tag w = flag ∧ operand_payload w = p.
Proof.
  intros Hf Hp. eexists. split; [reflexivity|].
  assert (Hw : Js.wrap32 p = p).
  { unfold Js.wrap32. rewrite Z.mod_small; lia. }
  unfold operand_tag, operand_payload. simpl. rewrite Hw.
  rewrite Z.shiftr_div_pow2, (Z.land_ones _ 2), Z.land_ones by lia.
  assert (Hpack : ∀ k, - 2 ≤ k ≤ 1 →
    Js.wrap32 (Z.lor (k * 2 ^ 30) p) = p + k * 2 ^ 30).
  { intros k Hk. rewrite lor_tag_payload by done. unfold Js.wrap32.
    rewrite Z.mod_small; lia. }
  assert (Hread : ∀ k, ((p + k * 2 ^ 30) `div` 2 ^ 30) = k ∧
                       (p + k * 2 ^ 30) `mod` 2 ^ 30 = p).
  { intros k. rewrite Z.div_add, Z.mod_add, Z.div_small, Z.mod_small by lia. done. }
  assert (flag = 0 ∨ flag = 1 ∨ flag = 2) as [-> | [-> | ->]] by lia.
  - change (Js.wrap32 (Js.wrap32 (Z.shiftl (Js.wrap32 0) (30 mod 32)))) with (0 * 2 ^ 30).
    rewrite Hpack by lia. by destruct (Hread 0) as [-> ->].
  - change (Js.wrap32 (Js.wrap32 (Z.shiftl (Js.wrap32 1) (30 mod 32)))) with (1 * 2 ^ 30).
    rewrite Hpack by lia. by destruct (Hread 1) as [-> ->].
  - change (Js.wrap32 (Js.wrap32 (Z.shiftl (Js.wrap32 2) (30 mod 32)))) with ((-2) * 2 ^ 30).
    rewrite Hpack by lia. by destruct (Hread (-2)) as [-> ->].
Qed.

End Packing.

(** ** The builder *)

Section BuilderFacts.

Context {Constants Block : Type} `{!ConstantPool Constants Block}.

Implicit Types (b : BasicOpcodeBuilder Constants).

Lemma patchable_grow l size size' :
  patchable l size → size ≤ size' → patchable l size'.
Proof.
  intros [Hin Hsep] Hle. split; [|done].
  eapply Forall_impl; [exact Hin|]. simpl. lia.
Qed.

(** Recording the instruction just pushed keeps a scope patchable. *)
Lemma patchable_record l l' size l1 l2 :
  0 ≤ size → patchable l size → Labels.sites l = l1 ++ l2 →
  Labels.sites l' = l1 ++ size :: l2 → patchable l' (size + 4).
Proof.
  intros Hsize [Hin Hsep] Hl Hl'. unfold patchable. rewrite Hl'. rewrite Hl in Hin, Hsep.
  split.
  - apply Forall_app in Hin as [H1 H2]. apply Forall_app. split.
    + eapply Forall_impl; [exact H1|]. simpl. lia.
    + apply Forall_cons. split.
      * lia.
      * eapply Forall_impl; [exact H2|]. simpl. lia.
  - apply separated_insert; [done|].
    eapply Forall_impl; [exact Hin|]. simpl. lia.
Qed.


(** Unfold a builder method applied to a state. *)
Ltac run :=
  unfold perform, jump, jumpIf, jumpUnless, record_jump, enter, enterList,
    iterate, exit, exitList, label, labels, startLabels, stopLabels,
    Stack_pop_labels, update_labels, reserve, push, pos, nextPos, local,
    releaseLocal, localsSize, primitive, string_, intern, expect,
    bind, ret, throw, modify, get_state in *;
  simpl in *.

(** The effect of [primitive] on everything but the constants. *)
Lemma primitive_frame v b b' :
  primitive v b = Normal tt b' →
  ∃ w, b' = with_program (program b ++
           [Program.COp Op.Primitive; Program.CNum w; Program.CNum 0; Program.CNum 0])
         (with_constants (constants b') b).
Proof.
  destruct b as [stack consts st loc sz prog].
  destruct v as [n|s|x| | | | |]; run;
    try destruct (constants_string consts s) as [h consts'] eqn:Hs; simpl;
    intros Hrun; simplify_eq; eauto.
Qed.

Lemma scopes_patchable_grow b b' :
  labelsStack b' = labelsStack b →
  (length (program b) ≤ length (program b'))%nat →
  scopes_patchable b → scopes_patchable b'.
Proof.
  unfold scopes_patchable. intros -> Hlen Hall.
  eapply Forall_impl; [exact Hall|]. simpl. intros l Hl.
  eapply patchable_grow; [exact Hl|]. unfold Program.next. lia.
Qed.


Section Record.

Context (l : Labels.t) (p : Program.t) (c1 c2 c3 c4 : Program.cell).
Hypothesis Hl : patchable l (Program.next p).

Let p' := p ++ [c1; c2; c3; c4].

Lemma pushed_current : Program.current p' = Program.next p.
Proof. unfold Program.current, Program.next, p'. rewrite length_app. simpl. lia. Qed.

Lemma pushed_next : Program.next p' = Program.next p + 4.
Proof. unfold Program.next, p'. rewrite length_app. simpl. lia. Qed.

Lemma jump_patchable Target target :
  patchable (Labels.jump l (Program.current p') Target target) (Program.next p').
Proof.
  rewrite pushed_current, pushed_next.
  eapply (patchable_record l _ _ (Labels.j_at <$> Labels.jumps l)); [|done|done|].
  - unfold Program.next. lia.
  - unfold Labels.sites. simpl. by rewrite fmap_app, <- app_assoc.
Qed.

Lemma range_patchable Range start_ end_ :
  patchable (Labels.range l (Program.current p') Range start_ end_) (Program.next p').
Proof.
  rewrite pushed_current, pushed_next.
  eapply (patchable_record l _ _
    ((Labels.j_at <$> Labels.jumps l) ++ (Labels.r_at <$> Labels.ranges l)));
    [|done| |].
  - unfold Program.next. lia.
  - unfold Labels.sites. by rewrite app_assoc.
  - unfold Labels.sites. simpl. by rewrite fmap_app, <- !app_assoc.
Qed.

Lemma iter_patchable breaks start_ end_ :
  patchable (Labels.iter l (Program.current p') breaks start_ end_) (Program.next p').
Proof.
  rewrite pushed_current, pushed_next.
  eapply (patchable_record l _ _ (Labels.sites l) []); [|done| |].
  - unfold Program.next. lia.
  - by rewrite app_nil_r.
  - unfold Labels.sites. simpl. by rewrite fmap_app, !app_assoc.
Qed.

End Record.

Lemma label_patchable l name index size :
  patchable l size → patchable (Labels.label l name index) size.
Proof. done. Qed.

(** A call that pushes an instruction and records it in the open scope. *)
Ltac record_case stack :=
  let l := fresh "l" in
  let rest := fresh "rest" in
  let Hl := fresh "Hl" in
  let Hs := fresh "Hs" in
  destruct stack as [|l rest]; simpl in *; simplify_eq; simpl;
  rewrite length_app; simpl; repeat split; try lia;
  unfold scopes_patchable; simpl; intros [Hl Hs]%Forall_cons;
  apply Forall_cons; split;
  [ first [by apply jump_patchable | by apply range_patchable
          | by apply iter_patchable]
  | eapply Forall_impl; [exact Hs|]; simpl; intros ? ?;
    eapply patchable_grow; [eassumption|];
    unfold Program.next; rewrite length_app; simpl; lia ].

(** One call of a compilation: the reserved slot stays where it is, the
    program does not shrink, the open scopes stay patchable and the locals
    counter moves with the call. *)
Lemma perform_step c b b' :
  perform c b = Normal tt b' →
  start b' = start b ∧
  (length (program b) ≤ length (program b'))%nat ∧
  (scopes_patchable b → scopes_patchable b') ∧
  locals b' = locals b + live [c] ∧
  _localsSize b' =
    match c with
    | CallLocal => Z.max (_localsSize b) (locals b + 1)
    | _ => _localsSize b
    end.
Proof.
  intros Hrun.
  destruct c; try (apply primitive_frame in Hrun as [w ->];
    simpl; rewrite length_app; simpl; repeat split; try lia;
    apply scopes_patchable_grow; simpl; [done|rewrite length_app; lia]);
  destruct b as [stack consts st loc sz prog]; run.
  - (* local *)
    destruct (Z.ltb_spec sz (loc + 1)); simplify_eq; simpl; repeat split; try lia; done.
  - simplify_eq; simpl; repeat split; try lia; done.
  - simplify_eq; simpl; rewrite length_app; simpl; repeat split; try lia.
    apply scopes_patchable_grow; simpl; [done|rewrite length_app; lia].
  - (* startLabels *)
    simplify_eq; simpl; repeat split; try lia.
    unfold scopes_patchable; simpl. intros Hs. apply Forall_cons. split; [|done].
    split; [constructor|done].
  - (* stopLabels *)
    destruct stack as [|l rest]; simpl in *; simplify_eq. simpl.
    pose proof (patch_length l prog).
    repeat split; try lia.
    unfold scopes_patchable; simpl. intros [_ Hs]%Forall_cons.
    eapply Forall_impl; [exact Hs|]. simpl. intros l' Hl'.
    eapply patchable_grow; [exact Hl'|]. unfold Program.next. lia.
  - (* label *)
    destruct stack as [|l rest]; simpl in *; simplify_eq. simpl.
    repeat split; try lia.
    unfold scopes_patchable; simpl. intros [Hl Hs]%Forall_cons.
    apply Forall_cons. split; [by apply label_patchable|done].
  - record_case stack.
  - record_case stack.
  - record_case stack.
  - record_case stack.
  - (* exit *)
    simplify_eq; simpl; rewrite length_app; simpl; repeat split; try lia.
    apply scopes_patchable_grow; simpl; [done|rewrite length_app; lia].
  - record_case stack.
  - (* exitList *)
    simplify_eq; simpl; rewrite length_app; simpl; repeat split; try lia.
    apply scopes_patchable_grow; simpl; [done|rewrite length_app; lia].
  - record_case stack.
Qed.

(** *** Locals *)

(** C7. Local allocation is a counter. [local] returns the counter and
    increments it; [releaseLocal] decrements it whatever its value, without
    a check and without failing; the [local] that follows a [releaseLocal]
    returns the index that was live last, and a [local] released at once is
    handed out again by the next [local]. *)
Theorem local_is_a_counter b :
  (∃ b1, local b = Normal (locals b) b1 ∧ locals b1 = locals b + 1) ∧
  (∃ b2, releaseLocal b = Normal tt b2 ∧ locals b2 = locals b - 1 ∧
         program b2 = program b ∧
         ∃ b3, local b2 = Normal (locals b - 1) b3 ∧ locals b3 = locals b) ∧
  (∃ b3, (let* _ := local in releaseLocal ;;; local) b = Normal (locals b) b3).
Proof.
  destruct b as [stack consts st loc sz prog]. run.
  repeat split.
  - eexists. split; [done|]. by destruct (sz <? loc + 1).
  - eexists. split; [done|]. repeat split; [done..|].
    eexists. split; [done|]. simpl. case_match; simpl; lia.
  - repeat (case_match; simpl in *); eexists; f_equal; lia.
Qed.

(** *** Label scopes *)

(** C8. With no label scope open, [stopLabels] throws, and so does every
    method that records a label or a jump, range or iterate target. *)
Theorem unbalanced_scope_throws b (name target breaks start_ end_ : string) :
  labelsStack b = [] →
  (∃ s, stopLabels b = Throw "unbalanced push and pop labels" s) ∧
  (∃ s, label name b = Throw "bug: not in a label stack" s) ∧
  (∃ s, jump target b = Throw "bug: not in a label stack" s) ∧
  (∃ s, jumpIf target b = Throw "bug: not in a label stack" s) ∧
  (∃ s, jumpUnless target b = Throw "bug: not in a label stack" s) ∧
  (∃ s, enter start_ end_ b = Throw "bug: not in a label stack" s) ∧
  (∃ s, enterList start_ end_ b = Throw "bug: not in a label stack" s) ∧
  (∃ s, iterate breaks start_ end_ b = Throw "bug: not in a label stack" s).
Proof.
  destruct b as [stack consts st loc sz prog]. simpl. intros ->.
  run. repeat split; eauto.
Qed.

(** *** Compilations *)

Lemma foldr_max_shift (d : Z) (l : list Z) :
  Z.max d (foldr Z.max 0 ((λ x, d + x) <$> l)) = Z.max 0 (d + foldr Z.max 0 l).
Proof. induction l as [|x l IH]; csimpl; lia. Qed.

Lemma high_water_mark_nonneg cs : 0 ≤ high_water_mark cs.
Proof. unfold high_water_mark. destruct cs; simpl; lia. Qed.

Lemma live_cons_prefixes c (ps : list (list Call)) :
  live <$> ((c ::.) <$> ps) = (λ x, live [c] + x) <$> (live <$> ps).
Proof.
  induction ps as [|p ps IH]; csimpl; [done|].
  rewrite IH. f_equal. destruct c; simpl; lia.
Qed.

Lemma high_water_mark_cons c cs :
  high_water_mark (c :: cs) = Z.max 0 (live [c] + high_water_mark cs).
Proof.
  unfold high_water_mark. simpl prefixes.
  rewrite fmap_cons, live_cons_prefixes.
  pose proof (foldr_max_shift (live [c]) (live <$> prefixes cs)) as Hs.
  destruct cs as [|c' cs]; simpl prefixes in *; rewrite !fmap_cons in *;
    csimpl in *; lia.
Qed.

Lemma perform_all_steps cs b b' :
  perform_all cs b = Normal tt b' →
  start b' = start b ∧
  (length (program b) ≤ length (program b'))%nat ∧
  (scopes_patchable b → scopes_patchable b') ∧
  (locals b ≤ _localsSize b →
   _localsSize b' = Z.max (_localsSize b) (locals b + high_water_mark cs)).
Proof.
  revert b. induction cs as [|c cs IH]; intros b; simpl.
  - unfold ret. intros [= <-]. repeat split; [done..|].
    change (high_water_mark []) with 0. lia.
  - unfold bind. destruct (perform c b) as [[] b1|] eqn:Hc; [|done].
    intros Hcs. apply perform_step in Hc as (Hs1 & Hl1 & Hp1 & Hloc1 & Hsz1).
    apply IH in Hcs as (Hs2 & Hl2 & Hp2 & Hsz2).
    repeat split; [congruence|lia|tauto|].
    intros Hle. rewrite high_water_mark_cons.
    pose proof (high_water_mark_nonneg cs).
    rewrite Hsz2; destruct c; simpl in *; lia.
Qed.

Lemma compilation_steps env_constants program0 cs b :
  compilation env_constants program0 cs = Normal tt b →
  start b = Program.next program0 ∧
  start b + 4 ≤ Program.next (program b) ∧
  scopes_patchable b ∧
  _localsSize b = high_water_mark cs.
Proof.
  unfold compilation, constructor. run. intros Hcs.
  apply perform_all_steps in Hcs as (Hs & Hl & Hp & Hsz). simpl in *.
  rewrite length_app in Hl. simpl in Hl.
  pose proof (high_water_mark_nonneg cs).
  repeat split.
  - done.
  - unfold Program.next in *. lia.
  - apply Hp. constructor.
  - rewrite Hsz; lia.
Qed.

(** C6. The constructor reserves a slot at the position the program had
    reached, and [finalize], at the end of any compilation, writes into that
    slot a [ReserveLocals] instruction carrying the register high-water mark
    and appends a [ReleaseLocals] instruction at the end of the program. *)
Theorem finalize_fills_reserved_slot env_constants program0 cs b :
  compilation env_constants program0 cs = Normal tt b →
  (∃ b0, constructor env_constants program0 = Normal tt b0 ∧
         start b0 = Program.next program0 ∧
         program b0 = program0 ++
           [Program.COp Op.ReserveLocals; Program.CNum 0; Program.CNum 0;
            Program.CNum 0]) ∧
  ∃ b', finalize b = Normal (Program.next (program b)) b' ∧
        start b' = Program.next program0 ∧
        Program.instruction (program b') (Program.next program0) =
          [Some (Program.COp Op.ReserveLocals);
           Some (Program.CNum (high_water_mark cs));
           Some (Program.CNum 0); Some (Program.CNum 0)] ∧
        Program.next (program b') = Program.next (program b) + 4 ∧
        Program.instruction (program b') (Program.next (program b)) =
          [Some (Program.COp Op.ReleaseLocals); Some (Program.CNum 0);
           Some (Program.CNum 0); Some (Program.CNum 0)].
Proof.
  intros Hc. split.
  { unfold constructor. run. eauto. }
  apply compilation_steps in Hc as (Hstart & Hlen & _ & Hsz).
  destruct b as [stack consts st loc sz prog]. unfold finalize. run.
  subst st sz.
  set (prog' := Program.set prog _ _ _ _ _).
  assert (Hlen' : length prog' = length prog).
  { apply set_length_in; unfold Program.next in *; lia. }
  rewrite Hlen'. eexists. split; [reflexivity|]. simpl.
  assert (Hslot : Program.instruction prog' (Program.next program0) =
    [Some (Program.COp Op.ReserveLocals); Some (Program.CNum (high_water_mark cs));
     Some (Program.CNum 0); Some (Program.CNum 0)]).
  { apply instruction_set_eq. unfold Program.next. lia. }
  assert (Hnext : Program.next prog' = Program.next prog)
    by (unfold Program.next; by rewrite Hlen').
  repeat split.
  - rewrite <- Hslot. apply instruction_app_l. unfold Program.next in *. lia.
  - unfold Program.next. rewrite length_app. simpl. lia.
  - rewrite <- Hnext. apply instruction_pushed.
Qed.

(** Closing the open scope of a compilation: [stopLabels] does not throw,
    and every instruction the scope recorded reads as [patch] wrote it. *)
Lemma stopLabels_patches env_constants program0 cs b l rest :
  compilation env_constants program0 cs = Normal tt b →
  labelsStack b = l :: rest →
  ∃ b', stopLabels b = Normal tt b' ∧ labelsStack b' = rest ∧
    (∀ j, j ∈ Labels.jumps l →
       Program.instruction (program b') (Labels.j_at j) = jump_written l j) ∧
    (∀ r, r ∈ Labels.ranges l →
       Program.instruction (program b') (Labels.r_at r) = range_written l r) ∧
    (∀ i, i ∈ Labels.iters l →
       Program.instruction (program b') (Labels.i_at i) = iter_written l i).
Proof.
  intros Hc Hstack.
  apply compilation_steps in Hc as (_ & _ & Hp & _).
  destruct b as [stack consts st loc sz prog]. simpl in Hstack. subst stack.
  apply Forall_cons in Hp as [Hl _]. simpl in Hl.
  run. eexists. split; [reflexivity|]. simpl. repeat split.
  - intros j Hj. by eapply patched_jump.
  - intros r Hr. by eapply patched_range.
  - intros i Hi. by eapply patched_iter.
Qed.

(** C10. When the open scope of a compilation is closed, every jump it
    recorded holds the offset recorded for its target label, unmodified, and
    every range and every iteration holds as its end operand the offset
    recorded for its end label minus 4. *)
Theorem patch_offsets env_constants program0 cs b l rest :
  compilation env_constants program0 cs = Normal tt b →
  labelsStack b = l :: rest →
  ∃ b', stopLabels b = Normal tt b' ∧
    (∀ j (offset : Z), j ∈ Labels.jumps l →
       Labels.labels l !! Labels.j_target j = Some offset →
       Program.get (program b') (Labels.j_at j) = Some (Program.COp (Labels.j_Target j)) ∧
       Program.get (program b') (Labels.j_at j + 1) = Some (Program.CNum offset)) ∧
    (∀ r (offset : Z), r ∈ Labels.ranges l →
       Labels.labels l !! Labels.r_end r = Some offset →
       Program.get (program b') (Labels.r_at r) = Some (Program.COp (Labels.r_Range r)) ∧
       Program.get (program b') (Labels.r_at r + 2) = Some (Program.CNum (offset - 4))) ∧
    (∀ i (offset : Z), i ∈ Labels.iters l →
       Labels.labels l !! Labels.i_end i = Some offset →
       Program.get (program b') (Labels.i_at i) = Some (Program.COp Op.Iterate) ∧
       Program.get (program b') (Labels.i_at i + 3) = Some (Program.CNum (offset - 4))).
Proof.
  intros Hc Hstack.
  destruct (stopLabels_patches _ _ _ _ _ _ Hc Hstack) as (b' & Hstop & _ & Hj & Hr & Hi).
  exists b'. split; [done|]. split; [|split].
  - intros j offset Hin Hlabel. specialize (Hj j Hin).
    unfold jump_written, Labels.lookup_arg in Hj. rewrite Hlabel in Hj.
    by injection Hj.
  - intros r offset Hin Hlabel. specialize (Hr r Hin).
    unfold range_written in Hr. rewrite Hlabel in Hr. by injection Hr.
  - intros i offset Hin Hlabel. specialize (Hi i Hin).
    unfold iter_written in Hi. rewrite Hlabel in Hi. by injection Hi.
Qed.

(** C3, as the code has it. Closing a scope does not check that the labels
    it refers to were placed: [stopLabels] succeeds whenever a scope is
    open, and a reference to a label never placed stays in the program, a
    jump with target operand 0 and a range or an iteration with the end
    operand NaN. *)
Theorem unresolved_label_survives env_constants program0 cs b l rest :
  compilation env_constants program0 cs = Normal tt b →
  labelsStack b = l :: rest →
  ∃ b', stopLabels b = Normal tt b' ∧ labelsStack b' = rest ∧
    (∀ j, j ∈ Labels.jumps l →
       Labels.labels l !! Labels.j_target j = None →
       Program.get (program b') (Labels.j_at j) = Some (Program.COp (Labels.j_Target j)) ∧
       Program.get (program b') (Labels.j_at j + 1) = Some (Program.CNum 0)) ∧
    (∀ r, r ∈ Labels.ranges l →
       Labels.labels l !! Labels.r_end r = None →
       Program.get (program b') (Labels.r_at r) = Some (Program.COp (Labels.r_Range r)) ∧
       Program.get (program b') (Labels.r_at r + 2) = Some (Program.CNum Js.NaN)) ∧
    (∀ i, i ∈ Labels.iters l →
       Labels.labels l !! Labels.i_end i = None →
       Program.get (program b') (Labels.i_at i) = Some (Program.COp Op.Iterate) ∧
       Program.get (program b') (Labels.i_at i + 3) = Some (Program.CNum Js.NaN)).
Proof.
  intros Hc Hstack.
  destruct (stopLabels_patches _ _ _ _ _ _ Hc Hstack) as (b' & Hstop & Hrest & Hj & Hr & Hi).
  exists b'. split; [done|]. split; [done|]. split; [|split].
  - intros j Hin Hlabel. specialize (Hj j Hin).
    unfold jump_written, Labels.lookup_arg in Hj. rewrite Hlabel in Hj.
    by injection Hj.
  - intros r Hin Hlabel. specialize (Hr r Hin).
    unfold range_written in Hr. rewrite Hlabel in Hr. by injection Hr.
  - intros i Hin Hlabel. specialize (Hi i Hin).
    unfold iter_written in Hi. rewrite Hlabel in Hi. by injection Hi.
Qed.

(** *** Primitives *)

Local Arguments Js.bitor : simpl never.
Local Arguments Js.shl : simpl never.

(** C4, as the code has it. [primitive] appends one [Primitive] instruction
    whose operand holds the flag in the two top bits of a 32-bit word and
    the payload in the thirty bits below: flag 0 and the number itself for
    an integer from 0 up to [2^30 - 1], flag 1 and the handle for a string
    whose handle fits thirty bits, flag 2 and the code 0 or 1 for a boolean,
    2 for [null], 3 for [undefined]. An object that is not [null] is encoded
    like [null]. A function or a symbol makes [primitive] throw, and the
    program is left as it was. *)
Theorem primitive_encoding b :
  (∀ n : Z, 0 ≤ n < 2 ^ 30 → emits_primitive b (Js.VNumber n) 0 n) ∧
  (∀ s, 0 ≤ (constants_string (constants b) s).1 < 2 ^ 30 →
     emits_primitive b (Js.VString s) 1 (constants_string (constants b) s).1) ∧
  (∀ x : bool, emits_primitive b (Js.VBoolean x) 2 (if x then 1 else 0)) ∧
  emits_primitive b Js.VNull 2 2 ∧
  emits_primitive b Js.VUndefined 2 3 ∧
  emits_primitive b Js.VObject 2 2 ∧
  (∀ v, Js.typeof v = Js.TFunction ∨ Js.typeof v = Js.TSymbol →
     primitive v b = Throw "Invalid primitive passed to pushPrimitive" b).
Proof.
  destruct b as [stack consts st loc sz prog]. unfold emits_primitive.
  repeat split.
  - intros n Hn. destruct (pack_tag_payload 0 n) as (w & Hw & Ht & Hp); [lia|done|].
    exists w. run. rewrite Hw. eauto.
  - simpl. intros s Hs. destruct (constants_string consts s) as [h consts'] eqn:Hc.
    simpl in Hs.
    destruct (pack_tag_payload 1 h) as (w & Hw & Ht & Hp); [lia|done|].
    exists w. run. rewrite Hc. simpl. rewrite Hw. eauto.
  - intros x.
    destruct (pack_tag_payload 2 (if x then 1 else 0)) as (w & Hw & Ht & Hp);
      [lia|destruct x; lia|].
    exists w. run. unfold Js.of_bool. rewrite Hw. eauto.
  - destruct (pack_tag_payload 2 2) as (w & Hw & Ht & Hp); [lia|lia|].
    exists w. run. rewrite Hw. eauto.
  - destruct (pack_tag_payload 2 3) as (w & Hw & Ht & Hp); [lia|lia|].
    exists w. run. rewrite Hw. eauto.
  - destruct (pack_tag_payload 2 2) as (w & Hw & Ht & Hp); [lia|lia|].
    exists w. run. rewrite Hw. eauto.
  - intros v [Hv|Hv]; destruct v; try done.
Qed.

(** *** Component invocation *)

Section Components.

Context {RawInlineBlock Hash Params : Type}.
Variable scan : RawInlineBlock → Block.
Variable compileComponentArgs :
  option Hash → M (BasicOpcodeBuilder Constants) ComponentArgs.

Ltac run_component :=
  unfold invokeComponent, setComponentState, pushBlock, block, pushDynamicScope,
    pushComponentArgs, createComponent, registerComponentDestructor,
    beginComponentTransaction, getComponentSelf, getComponentLayout,
    invokeDynamic, other, didCreateElement, didRenderLayout, popScope,
    popDynamicScope, commitComponentTransaction;
  run.

(** C5. [invokeComponent] emits the invocation protocol in a fixed order.
    It takes the next local for the component state and emits
    [SetComponentState] and a [PushBlock] for the default and for the
    inverse block; the named arguments are compiled next; then follow, in
    this order, [PushDynamicScope], [PushComponentArgs], [CreateComponent],
    [RegisterComponentDestructor], [BeginComponentTransaction],
    [GetComponentSelf], [GetComponentLayout], [InvokeDynamic],
    [DidCreateElement], [DidRenderLayout], [PopScope], [PopDynamicScope] and
    [CommitComponentTransaction], and the local is released. *)
Theorem invokeComponent_protocol attrs (_params : option Params) hash blk inverse b :
  let state := locals b in
  ∃ (h_block h_inverse : Z) b1,
    (let* state := local in
     setComponentState state ;;; pushBlock blk ;;; pushBlock inverse ;;; ret state) b
      = Normal state b1 ∧
    program b1 = program b ++
      [Program.COp Op.SetComponentState; Program.CNum state; Program.CNum 0; Program.CNum 0;
       Program.COp Op.PushBlock; Program.CNum h_block; Program.CNum 0; Program.CNum 0;
       Program.COp Op.PushBlock; Program.CNum h_inverse; Program.CNum 0; Program.CNum 0] ∧
    locals b1 = state + 1 ∧
    ∀ args b2,
      compileComponentArgs hash b1 = Normal args b2 →
      ∃ (h_slots h_layout : Z) b',
        invokeComponent scan compileComponentArgs attrs _params hash blk inverse b
          = Normal tt b' ∧
        program b' = program b2 ++
          [Program.COp Op.PushDynamicScope; Program.CNum 0; Program.CNum 0; Program.CNum 0;
           Program.COp Op.PushComponentArgs; Program.CNum 0; Program.CNum (count args);
             Program.CNum h_slots;
           Program.COp Op.CreateComponent; Program.CNum 1; Program.CNum state; Program.CNum 0;
           Program.COp Op.RegisterComponentDestructor; Program.CNum state; Program.CNum 0;
             Program.CNum 0;
           Program.COp Op.BeginComponentTransaction; Program.CNum 0; Program.CNum 0;
             Program.CNum 0;
           Program.COp Op.GetComponentSelf; Program.CNum state; Program.CNum 0; Program.CNum 0;
           Program.COp Op.GetComponentLayout; Program.CNum state; Program.CNum 0;
             Program.CNum 0;
           Program.COp Op.InvokeDynamic; Program.CNum h_layout; Program.CNum 0; Program.CNum 0;
           Program.COp Op.DidCreateElement; Program.CNum state; Program.CNum 0; Program.CNum 0;
           Program.COp Op.DidRenderLayout; Program.CNum state; Program.CNum 0; Program.CNum 0;
           Program.COp Op.PopScope; Program.CNum 0; Program.CNum 0; Program.CNum 0;
           Program.COp Op.PopDynamicScope; Program.CNum 0; Program.CNum 0; Program.CNum 0;
           Program.COp Op.CommitComponentTransaction; Program.CNum 0; Program.CNum 0;
             Program.CNum 0] ∧
        locals b' = locals b2 - 1.
Proof.
  destruct b as [stack consts st loc sz prog]. simpl.
  destruct blk as [x|], inverse as [y|]; run_component;
    (eexists _, _, _; split; [reflexivity|]; split; [|split];
     [ destruct (sz <? loc + 1); simpl; rewrite <- !app_assoc; reflexivity
     | destruct (sz <? loc + 1); reflexivity
     | intros args b2 Hargs; rewrite Hargs; simpl;
       eexists _, _, _; split; [reflexivity|]; split;
       [ simpl; rewrite <- !app_assoc; reflexivity | reflexivity ] ]).
Qed.

End Components.

End BuilderFacts.

(** ** The builder on concrete compilations *)

Lemma unbalanced_scope_throws_witness :
  (∃ s, stopLabels Examples.fresh = Throw "unbalanced push and pop labels" s) ∧
  (∃ s, label "END" Examples.fresh = Throw "bug: not in a label stack" s) ∧
  (∃ s, jump "END" Examples.fresh = Throw "bug: not in a label stack" s) ∧
  (∃ s, jumpIf "END" Examples.fresh = Throw "bug: not in a label stack" s) ∧
  (∃ s, jumpUnless "END" Examples.fresh = Throw "bug: not in a label stack" s) ∧
  (∃ s, enter "BEGIN" "END" Examples.fresh = Throw "bug: not in a label stack" s) ∧
  (∃ s, enterList "BEGIN" "END" Examples.fresh = Throw "bug: not in a label stack" s) ∧
  (∃ s, iterate "BREAK" "BEGIN" "END" Examples.fresh
          = Throw "bug: not in a label stack" s).
Proof.
  apply (unbalanced_scope_throws Examples.fresh "END" "END" "BREAK" "BEGIN" "END").
  reflexivity.
Defined.

Lemma finalize_fills_reserved_slot_witness :
  ∃ b', finalize Examples.locals_builder = Normal 4 b' ∧
        Program.instruction (program b') 0 =
          [Some (Program.COp Op.ReserveLocals); Some (Program.CNum 3);
           Some (Program.CNum 0); Some (Program.CNum 0)] ∧
        Program.instruction (program b') 4 =
          [Some (Program.COp Op.ReleaseLocals); Some (Program.CNum 0);
           Some (Program.CNum 0); Some (Program.CNum 0)].
Proof.
  destruct (finalize_fills_reserved_slot ListPool.empty [] Examples.locals_calls
    Examples.locals_builder) as [_ (b' & Hfinal & _ & Hslot & _ & Hend)];
    [vm_compute; reflexivity|].
  exists b'. split; [exact Hfinal|]. split; [|exact Hend].
  replace 3 with (high_water_mark Examples.locals_calls) by (vm_compute; reflexivity).
  exact Hslot.
Defined.

Lemma patch_offsets_witness :
  ∃ b', stopLabels Examples.loop_builder = Normal tt b' ∧
    Program.get (program b') 21 = Some (Program.CNum 8) ∧
    Program.get (program b') 6 = Some (Program.CNum 12) ∧
    Program.get (program b') 11 = Some (Program.CNum 12) ∧
    Labels.labels Examples.loop_scope !! "ITER" = Some 8 ∧
    Labels.labels Examples.loop_scope !! "END" = Some 16.
Proof.
  assert (Hiter : Labels.labels Examples.loop_scope !! "ITER" = Some 8)
    by (vm_compute; reflexivity).
  assert (Hend : Labels.labels Examples.loop_scope !! "END" = Some 16)
    by (vm_compute; reflexivity).
  destruct (patch_offsets ListPool.empty [] Examples.loop_calls Examples.loop_builder
    Examples.loop_scope []) as (b' & Hstop & Hj & Hr & Hi);
    [vm_compute; reflexivity|reflexivity|].
  exists b'. split; [exact Hstop|].
  split; [|split; [|split; [|split]]].
  - apply (Hj (Labels.mkJump 20 "ITER" Op.Jump) 8); [apply list_elem_of_here|exact Hiter].
  - apply (Hr (Labels.mkRange 4 "BEGIN" "END" Op.EnterList) 16);
      [apply list_elem_of_here|exact Hend].
  - apply (Hi (Labels.mkIter 8 "BREAK" "BEGIN" "END") 16);
      [apply list_elem_of_here|exact Hend].
  - exact Hiter.
  - exact Hend.
Defined.

Lemma unresolved_label_survives_witness :
  ∃ b', stopLabels Examples.dangling_builder = Normal tt b' ∧
    Labels.labels Examples.dangling_scope !! "MISSING" = None ∧
    Labels.labels Examples.dangling_scope !! "NOWHERE" = None ∧
    Program.get (program b') 5 = Some (Program.CNum 0) ∧
    Program.get (program b') 10 = Some (Program.CNum Js.NaN) ∧
    Program.get (program b') 15 = Some (Program.CNum Js.NaN).
Proof.
  assert (Hmissing : Labels.labels Examples.dangling_scope !! "MISSING" = None)
    by (vm_compute; reflexivity).
  assert (Hnowhere : Labels.labels Examples.dangling_scope !! "NOWHERE" = None)
    by (vm_compute; reflexivity).
  destruct (unresolved_label_survives ListPool.empty [] Examples.dangling_calls
    Examples.dangling_builder Examples.dangling_scope [])
    as (b' & Hstop & _ & Hj & Hr & Hi); [vm_compute; reflexivity|reflexivity|].
  exists b'. split; [exact Hstop|].
  split; [exact Hmissing|]. split; [exact Hnowhere|].
  split; [|split].
  - apply (Hj (Labels.mkJump 4 "MISSING" Op.Jump)); [apply list_elem_of_here|exact Hmissing].
  - apply (Hr (Labels.mkRange 8 "BEGIN" "NOWHERE" Op.Enter));
      [apply list_elem_of_here|exact Hnowhere].
  - apply (Hi (Labels.mkIter 12 "BREAK" "BEGIN" "NOWHERE"));
      [apply list_elem_of_here|exact Hnowhere].
Defined.

(** C3 fails as stated: a compilation whose scope refers to labels never
    placed is closed and finalized without a fault, and the references are
    in the finished program. *)
Lemma dangling_labels_not_rejected :
  ∃ b,
    compilation ListPool.empty []
      [CallStartLabels; CallJump "MISSING"; CallEnter "BEGIN" "NOWHERE";
       CallLabel "BEGIN"; CallStopLabels] = Normal tt b ∧
    labelsStack b = [] ∧
    ∃ b', finalize b = Normal 12 b' ∧
      program b' =
        [Program.COp Op.ReserveLocals; Program.CNum 0; Program.CNum 0; Program.CNum 0;
         Program.COp Op.Jump; Program.CNum 0; Program.CNum 0; Program.CNum 0;
         Program.COp Op.Enter; Program.CNum 12; Program.CNum Js.NaN; Program.CNum 0;
         Program.COp Op.ReleaseLocals; Program.CNum 0; Program.CNum 0; Program.CNum 0].
Proof.
  eexists. split; [vm_compute; reflexivity|]. split; [reflexivity|].
  eexists. split; vm_compute; reflexivity.
Qed.

Lemma primitive_encoding_witness :
  emits_primitive Examples.fresh (Js.VNumber 42) 0 42 ∧
  emits_primitive Examples.fresh (Js.VString "id") 1 1 ∧
  primitive Js.VFunction Examples.fresh
    = Throw "Invalid primitive passed to pushPrimitive" Examples.fresh.
Proof.
  destruct (primitive_encoding Examples.fresh) as (Hn & Hs & _ & _ & _ & _ & Hf).
  split; [apply Hn; lia|]. split; [apply (Hs "id"); by vm_compute|].
  apply Hf. by left.
Defined.

(** C4 fails as stated: a number that needs more than thirty bits is
    or-ed into the flag bits, so that [2^30] reads as flag 1 with payload 0;
    and an object that is not [null] does not make [primitive] throw, it is
    encoded like [null]. *)
Lemma primitive_counterexample :
  (∃ b', primitive (Js.VNumber 1073741824) Examples.fresh = Normal tt b' ∧
         program b' = program Examples.fresh ++
           [Program.COp Op.Primitive; Program.CNum 1073741824;
            Program.CNum 0; Program.CNum 0] ∧
         operand_tag 1073741824 = 1 ∧ operand_payload 1073741824 = 0) ∧
  (∃ b', primitive Js.VObject Examples.fresh = Normal tt b' ∧
         program b' = program Examples.fresh ++
           [Program.COp Op.Primitive; Program.CNum (-2147483646);
            Program.CNum 0; Program.CNum 0]).
Proof.
  split; eexists; (split; [vm_compute; reflexivity|]); repeat split; vm_compute; reflexivity.
Qed.

Lemma invokeComponent_protocol_witness :
  ∃ b', invokeComponent (λ _ : unit, "attrs") Examples.no_arguments
          None (None : option unit) None (Some "default") None Examples.fresh
          = Normal tt b' ∧
        locals b' = 0.
Proof.
  destruct (invokeComponent_protocol (λ _ : unit, "attrs") Examples.no_arguments
    None (None : option unit) None (Some "default") None Examples.fresh)
    as (h1 & h2 & b1 & Hpro & _ & Hlocals & Hrest).
  destruct (Hrest (mkArgs ∅ 0 []) b1 eq_refl) as (h3 & h4 & b' & Hrun & _ & Hreleased).
  exists b'. split; [exact Hrun|].
  rewrite Hreleased. simpl. rewrite Hlocals. reflexivity.
Defined.

(** The structural helpers on a one-instruction body: the region of
    [labelled] spans from its first to its last instruction, and [iter]
    jumps back to its [Iterate] and breaks out to its [ExitList]. *)
Example labelled_region :
  ∃ b, labelled (λ _ _, push Op.Text 1 0 0 ;;; ret tt) Examples.fresh = Normal tt b ∧
       labelsStack b = [] ∧
       program b =
         [Program.COp Op.ReserveLocals; Program.CNum 0; Program.CNum 0; Program.CNum 0;
          Program.COp Op.Enter; Program.CNum 8; Program.CNum 8; Program.CNum 0;
          Program.COp Op.Text; Program.CNum 1; Program.CNum 0; Program.CNum 0;
          Program.COp Op.Exit; Program.CNum 0; Program.CNum 0; Program.CNum 0].
Proof. eexists. split; [vm_compute; reflexivity|]. split; reflexivity. Qed.

Example iter_region :
  ∃ b, iter (λ _ _, push Op.Text 1 0 0 ;;; ret tt) Examples.fresh = Normal tt b ∧
       labelsStack b = [] ∧
       program b =
         [Program.COp Op.ReserveLocals; Program.CNum 0; Program.CNum 0; Program.CNum 0;
          Program.COp Op.EnterList; Program.CNum 12; Program.CNum 12; Program.CNum 0;
          Program.COp Op.Iterate; Program.CNum 24; Program.CNum 12; Program.CNum 12;
          Program.COp Op.Text; Program.CNum 1; Program.CNum 0; Program.CNum 0;
          Program.COp Op.Exit; Program.CNum 0; Program.CNum 0; Program.CNum 0;
          Program.COp Op.Jump; Program.CNum 8; Program.CNum 0; Program.CNum 0;
          Program.COp Op.ExitList; Program.CNum 0; Program.CNum 0; Program.CNum 0].
Proof. eexists. split; [vm_compute; reflexivity|]. split; reflexivity. Qed.

(** ** Rehydration *)

Section RehydrationFacts.

Import Dom Template Render Rehydrate.

Local Arguments mismatch : simpl never.



(** *** Attributes *)



(** *** Emitted nodes *)



(** *** A pass over a tree without [tbody] *)








(** *** The document the client holds *)












(** *** The end of the pass *)









End RehydrationFacts.

(** ** Adopting the output of the same render *)

Section AdoptionFacts.

Import Dom Template Render Rehydrate.

Local Arguments mismatch : simpl never.
Local Arguments step_into : simpl never.

(** *** Tree construction and structure *)




Lemma is_row_tree_construction n : is_row (tree_construction n) = is_row n.
Proof. by destruct n. Qed.

Lemma is_row_structure n :
  existsb is_row (structure n) = is_row n.
Proof. destruct n as [| ? [] |]; simpl; try done. by rewrite orb_false_r. Qed.





(** *** A pass over the output of the same render *)





Lemma created_existing_element id tag attrs children :
  created (Element id tag attrs children) = [] →
  (∃ k, id = Existing k) ∧ flat_map created children = [].
Proof. destruct id; [eauto|done]. Qed.


End AdoptionFacts.

(** ** Rehydrating the output of the same render *)

Section IdempotenceFacts.

Import Dom Template Render Rehydrate.





(** *** The scenarios of the rehydration test suite *)

(** C9. The template [{{content}}] rendered on the server with content
    [hello] and rehydrated with content [goodbye]: the text node the server
    made is the text node of the final tree, its value is [goodbye], and no
    node is removed. *)
Theorem mismatched_text_nodes :
  let template := [TContent "content"] in
  let server :=
    parsed (Create_serialized template {["content" := VString "hello"]}) in
  server = [Comment (Existing 0) (BlockOpen 0); Comment (Existing 1) (BlockOpen 1);
            Text (Existing 2) "hello";
            Comment (Existing 3) (BlockClose 1); Comment (Existing 4) (BlockClose 0)] ∧
  Rehydrate template {["content" := VString "goodbye"]} server
    = ([Text (Existing 2) "goodbye"], []).
Proof. by vm_compute. Qed.



(** "mismatched elements": the [div] is removed and a [p] is created. *)
Example mismatched_elements :
  let template :=
    [TIf "admin" [TElement "div" [] [TText "hi admin"]]
                 [TElement "p" [] [TText "HAXOR"]]] in
  Rehydrate template {["admin" := VBoolean false]}
    (parsed (Create_serialized template {["admin" := VBoolean true]}))
  = ([Element New "p" ∅ [Text New "HAXOR"]],
     [Element (Existing 2) "div" ∅ [Text (Existing 3) "hi admin"]]).
Proof. by vm_compute. Qed.

(** "extra nodes at the end": the [div] is adopted, its text repaired and
    the stale content after it removed. *)
Example extra_nodes_at_the_end :
  let template :=
    [TIf "admin" [TElement "div" [] [TText "hi admin"]]
                 [TElement "div" [] [TText "HAXOR"; TContent "stopHaxing"]]] in
  Rehydrate template {["admin" := VBoolean true]}
    (parsed (Create_serialized template
       (<["admin" := VBoolean false]> {["stopHaxing" := VString "stahp"]})))
  = ([Element (Existing 2) "div" ∅ [Text (Existing 3) "hi admin"]],
     [Text (Existing 5) "stahp"]).
Proof. by vm_compute. Qed.

(** "clearing bounds": both paragraphs of the list are removed. *)
Example clearing_bounds :
  let template :=
    [TIf "isTrue"
       [TEach "items" "item"
          [TElement "p" [] [TContent "item"; TText "-"; TContent "item"]]] []] in
  let rehydrated :=
    Rehydrate template
      (<["isTrue" := VBoolean false]> {["items" := VList [VString "3"; VString "4"]]})
      (parsed (Create_serialized template
         (<["isTrue" := VBoolean true]>
            {["items" := VList [VString "1"; VString "2"]]}))) in
  rehydrated.1 = [Comment New (Plain "")] ∧
  map shape (map tree_construction rehydrated.2)
    = [Element New "p" ∅
         [Comment New (BlockOpen 5); Text New "1"; Comment New (BlockClose 5);
          Text New "-";
          Comment New (BlockOpen 5); Text New "1"; Comment New (BlockClose 5)];
       Element New "p" ∅
         [Comment New (BlockOpen 5); Text New "2"; Comment New (BlockClose 5);
          Text New "-";
          Comment New (BlockOpen 5); Text New "2"; Comment New (BlockClose 5)]].
Proof. by vm_compute. Qed.

(** "top-level clearing bounds": [inside] is removed; the markers and the
    placeholder comment cleared with it are not counted. *)
Example top_level_clearing_bounds :
  let each :=
    TEach "items" "item"
      [TElement "p" [] [TContent "item"; TText "-"; TContent "item"]] in
  let template :=
    [TElement "top" [] [TIf "isTrue" [TElement "inside" [] [each]] []];
     TIf "isFalse" [each] []] in
  let rehydrated :=
    Rehydrate template
      (<["isTrue" := VBoolean false]> (<["isFalse" := VBoolean true]>
         {["items" := VList [VString "3"; VString "4"]]}))
      (parsed (Create_serialized template
         (<["isTrue" := VBoolean true]>
            {["items" := VList [VString "1"; VString "2"]]}))) in
  rehydrated.1
    = [Element (Existing 1) "top" ∅ [Comment New (Plain "")];
       Element New "p" ∅ [Text New "3"; Text New "-"; Text New "3"];
       Element New "p" ∅ [Text New "4"; Text New "-"; Text New "4"]] ∧
  length rehydrated.2 = 1%nat.
Proof. by vm_compute. Qed.

(** "#each rehydration": one changed leaf, every node adopted, nothing
    removed. *)
Example each_rehydration :
  let template := [TEach "items" "item" [TElement "p" [] [TContent "item"]]] in
  Rehydrate template {["items" := VList [VString "1"; VString "2"; VString "4"]]}
    (parsed (Create_serialized template
       {["items" := VList [VString "1"; VString "2"; VString "3"]]}))
  = ([Element (Existing 4) "p" ∅ [Text (Existing 6) "1"];
      Element (Existing 10) "p" ∅ [Text (Existing 12) "2"];
      Element (Existing 16) "p" ∅ [Text (Existing 18) "4"]],
     []).
Proof. by vm_compute. Qed.

(** "table with omitted tbody": the server output holds the implied
    [tbody]; the client steps into it and removes nothing. *)
Example table_with_omitted_tbody :
  let template :=
    [TElement "table" [] [TElement "tr" [] [TElement "td" [] [TText "standards"]]]] in
  Create_serialized template ∅
    = [Comment New (BlockOpen 0);
       Element New "table" ∅
         [Element New "tbody" ∅
            [Element New "tr" ∅ [Element New "td" ∅ [Text New "standards"]]]];
       Comment New (BlockClose 0)] ∧
  Rehydrate template ∅ (parsed (Create_serialized template ∅))
    = ([Element (Existing 1) "table" ∅
          [Element (Existing 2) "tbody" ∅
             [Element (Existing 3) "tr" ∅
                [Element (Existing 4) "td" ∅ [Text (Existing 5) "standards"]]]]],
       []).
Proof. by vm_compute. Qed.

(** "mismatched text nodes (server-render empty)": the server writes the
    reserved placeholder for the empty text; the client puts a text node in
    its place and removes nothing. *)
Example server_render_empty :
  let template := [TContent "content"; TText " world"] in
  Create_serialized template {["content" := VString ""]}
    = [Comment New (BlockOpen 0); Comment New (BlockOpen 1); Comment New Empty;
       Comment New (BlockClose 1); Text New " world"; Comment New (BlockClose 0)] ∧
  Rehydrate template {["content" := VString "hello"]}
    (parsed (Create_serialized template {["content" := VString ""]}))
    = ([Text New "hello"; Text (Existing 4) " world"], []).
Proof. by vm_compute. Qed.

(** "rehydrates into element with pre-existing content": what the root
    held before the server output stays, and nothing is removed. *)
Example pre_existing_content :
  let template := [TElement "div" [] [TText "Hi!"]] in
  Rehydrate template ∅
    (parsed (Element New "noscript" ∅ [] :: Create_serialized template ∅))
  = ([Element (Existing 0) "noscript" ∅ [];
      Element (Existing 2) "div" ∅ [Text (Existing 3) "Hi!"]],
     []).
Proof. by vm_compute. Qed.

(** "Component invocations": the server output holds the component's
    element after the start markers of the template and of the invocation,
    with the argument inside markers of depth 2; the client adopts every
    node of it and removes nothing. *)
Example component_invocations :
  let template :=
    [TComponent "div" [("name", "name")] [TText "Hello "; TContent "@name"]] in
  let server :=
    parsed (Create_serialized template {["name" := VString "Filewatcher"]}) in
  server = [Comment (Existing 0) (BlockOpen 0); Comment (Existing 1) (BlockOpen 1);
            Element (Existing 2) "div" ∅
              [Text (Existing 3) "Hello "; Comment (Existing 4) (BlockOpen 2);
               Text (Existing 5) "Filewatcher"; Comment (Existing 6) (BlockClose 2)];
            Comment (Existing 7) (BlockClose 1); Comment (Existing 8) (BlockClose 0)] ∧
  Rehydrate template {["name" := VString "Filewatcher"]} server
    = ([Element (Existing 2) "div" ∅
          [Text (Existing 3) "Hello "; Text (Existing 5) "Filewatcher"]], []).
Proof. by vm_compute. Qed.

(** "Mismatched Component invocations": the text of the argument is
    repaired in place, and nothing is removed. *)
Example mismatched_component_invocations :
  let template :=
    [TComponent "div" [("name", "name")] [TText "Hello "; TContent "@name"]] in
  Rehydrate template {["name" := VString "Chad"]}
    (parsed (Create_serialized template {["name" := VString "Filewatcher"]}))
  = ([Element (Existing 2) "div" ∅
        [Text (Existing 3) "Hello "; Text (Existing 5) "Chad"]], []).
Proof. by vm_compute. Qed.

End IdempotenceFacts.

(** * Further properties of the builder *)

(** Unfold a builder method applied to a state. *)
Ltac unfold_methods :=
  unfold perform, jump, jumpIf, jumpUnless, record_jump, enter, enterList,
    iterate, exit, exitList, label, labels, startLabels, stopLabels,
    Stack_pop_labels, update_labels, reserve, push, pos, nextPos, local,
    releaseLocal, localsSize, primitive, string_, intern, expect,
    bind, ret, throw, modify, get_state in *;
  simpl in *.

Section FaultFacts.

Context {Constants Block : Type} `{!ConstantPool Constants Block}.

Implicit Types (b : BasicOpcodeBuilder Constants) (c : Call).

(** X1. Of the calls a compilation is made of here, that is [local],
    [releaseLocal], [push], [startLabels], [stopLabels], [label], [jump],
    [jumpIf], [jumpUnless], [enter], [exit], [enterList], [exitList],
    [iterate], and [primitive] on a number, a string, a boolean, [null], an
    object, [undefined], a function or a symbol, one throws exactly when
    it is [stopLabels], [label], [jump], [jumpIf], [jumpUnless], [enter],
    [enterList] or [iterate] and no label scope is open, or it is
    [primitive] on a function or a symbol. The other methods of the
    builder, [test] among them, are not calls of [Call], and the statement
    says nothing of them. *)
Theorem perform_throws_iff c b :
  (∃ msg s, perform c b = Throw msg s) ↔
  (needs_scope c = true ∧ labelsStack b = []) ∨ invalid_primitive c = true.
Proof.
  destruct b as [stack consts st loc sz prog]. split.
  - intros (msg & s & Hthrow).
    destruct c; unfold_methods; try done;
      try (destruct stack; [by left|done]).
    destruct v as [n|x|x| | | | |]; unfold_methods; try done; by right.
  - simpl. intros [[Hneeds ->]|Hinvalid].
    + destruct c; try done; unfold_methods; eauto.
    + destruct c; try done. destruct v; try done; unfold_methods; eauto.
Qed.

(** X2. When a call throws for want of a label scope, [jump], [jumpIf],
    [jumpUnless], [enter], [enterList] and [iterate] have already appended
    their instruction to the program; [label] and [stopLabels] leave the
    program as it was. *)
Theorem fault_leaves_reserved_instruction c b msg s :
  needs_scope c = true →
  perform c b = Throw msg s →
  labelsStack s = [] ∧
  if reserves_first c
  then ∃ op, program s = program b ++ instr op 0 0 0
  else program s = program b.
Proof.
  destruct b as [stack consts st loc sz prog].
  destruct c; try done; intros _; unfold_methods;
    destruct stack; simpl; try done; intros [= <- <-]; simpl;
    (split; [done|]); try done; eexists; reflexivity.
Qed.

End FaultFacts.

Section ScopeFacts.

Context {Constants Block : Type} `{!ConstantPool Constants Block}.

Implicit Types (b : BasicOpcodeBuilder Constants).

Lemma array_set_app p q (k : nat) v :
  (k < length q)%nat →
  Program.array_set (p ++ q) (Z.of_nat (length p + k)) v = p ++ <[k := v]> q.
Proof.
  intros Hk. unfold Program.array_set.
  rewrite (proj2 (Z.ltb_ge _ 0)) by lia.
  rewrite Nat2Z.id.
  rewrite (proj2 (Nat.ltb_lt _ _)) by (rewrite length_app; lia).
  rewrite insert_app_r_alt by lia. f_equal. f_equal. lia.
Qed.

(** Overwriting an instruction in the middle of a program. *)
Lemma set_at p c1 c2 c3 c4 rest type op1 op2 op3 :
  Program.set (p ++ [c1; c2; c3; c4] ++ rest) (Program.next p) type op1 op2 op3 =
    p ++ instr type (Js.default0 op1) (Js.default0 op2) (Js.default0 op3) ++ rest.
Proof.
  unfold Program.set, Program.next.
  replace (Z.of_nat (length p)) with (Z.of_nat (length p + 0)) at 1 by lia.
  rewrite array_set_app by (simpl; lia).
  replace (Z.of_nat (length p) + 1) with (Z.of_nat (length p + 1)) by lia.
  rewrite array_set_app by (simpl; lia).
  replace (Z.of_nat (length p) + 2) with (Z.of_nat (length p + 2)) by lia.
  rewrite array_set_app by (simpl; lia).
  replace (Z.of_nat (length p) + 3) with (Z.of_nat (length p + 3)) by lia.
  rewrite array_set_app by (simpl; lia).
  reflexivity.
Qed.

Lemma set_last p c1 c2 c3 c4 type op1 op2 op3 :
  Program.set (p ++ [c1; c2; c3; c4]) (Program.next p) type op1 op2 op3 =
    p ++ instr type (Js.default0 op1) (Js.default0 op2) (Js.default0 op3).
Proof.
  pose proof (set_at p c1 c2 c3 c4 [] type op1 op2 op3) as Hset.
  by rewrite !app_nil_r in Hset.
Qed.

(** X3. Labels are looked up in the scope being closed and nowhere else: a
    jump recorded in a new scope that places no label of that name is
    patched with target 0 whatever the enclosing scopes hold, and the
    enclosing scopes are left as they were. *)
Theorem enclosing_labels_not_visible Target target b :
  (startLabels ;;; record_jump Target target ;;; stopLabels) b =
    Normal tt (with_program (program b ++ instr Target 0 0 0) b).
Proof.
  destruct b as [stack consts st loc sz prog]. unfold_methods.
  unfold with_program, with_labelsStack, Labels.patch, Labels.patch_jump,
    Labels.lookup_arg. simpl.
  rewrite lookup_empty. simpl.
  replace (Program.current (prog ++ [Program.COp Target; Program.CNum 0;
    Program.CNum 0; Program.CNum 0])) with (Program.next prog).
  - by rewrite set_last.
  - unfold Program.current, Program.next. rewrite length_app. simpl. lia.
Qed.

Lemma perform_all_app cs1 cs2 b :
  perform_all (cs1 ++ cs2) b =
    match perform_all cs1 b with
    | Normal _ b1 => perform_all cs2 b1
    | Throw msg s => Throw msg s
    end.
Proof.
  revert b. induction cs1 as [|c cs1 IH]; intros b; simpl; [done|].
  unfold bind. destruct (perform c b) as [[] b1|]; [apply IH|done].
Qed.

Lemma compilation_app env_constants program0 cs1 cs2 b1 :
  compilation env_constants program0 cs1 = Normal tt b1 →
  compilation env_constants program0 (cs1 ++ cs2) = perform_all cs2 b1.
Proof.
  unfold compilation. destruct (constructor env_constants program0) as [[] b0|]; [|done].
  intros Hcs. by rewrite perform_all_app, Hcs.
Qed.

(** X4. A jump may refer to a label placed after it, and the placement made
    last is the one that counts: when a label is placed just before the
    scope is closed, every jump the scope recorded to that name, whenever it
    was recorded and whatever offset the name had before, is patched with
    the position the program has reached. *)
Theorem forward_reference_resolved env_constants program0 cs b l rest j :
  compilation env_constants program0 cs = Normal tt b →
  labelsStack b = l :: rest →
  j ∈ Labels.jumps l →
  ∃ b', (label (Labels.j_target j) ;;; stopLabels) b = Normal tt b' ∧
        labelsStack b' = rest ∧
        Program.get (program b') (Labels.j_at j) = Some (Program.COp (Labels.j_Target j)) ∧
        Program.get (program b') (Labels.j_at j + 1)
          = Some (Program.CNum (Program.next (program b))).
Proof.
  intros Hc Hstack Hj.
  set (name := Labels.j_target j).
  assert (Hlabel : label name b = Normal tt
    (with_labelsStack (Labels.label l name (Program.next (program b)) :: rest) b)).
  { destruct b as [stack consts st loc sz prog]. simpl in Hstack. subst stack.
    by unfold_methods. }
  pose proof (compilation_app env_constants program0 cs [CallLabel name] b Hc) as Hc'.
  simpl in Hc'. unfold bind in Hc'. rewrite Hlabel in Hc'. unfold ret in Hc'.
  destruct (stopLabels_patches _ _ _ _ _ _ Hc' eq_refl)
    as (b' & Hstop & Hrest & Hjumps & _).
  exists b'. unfold bind at 1. rewrite Hlabel. split; [done|]. split; [done|].
  specialize (Hjumps j Hj). unfold jump_written, Labels.lookup_arg in Hjumps.
  simpl in Hjumps. fold name in Hjumps. rewrite lookup_insert_eq in Hjumps.
  by injection Hjumps.
Qed.

(** *** What the calls do to the program *)

Lemma perform_appends c b b' :
  c ≠ CallStopLabels →
  perform c b = Normal tt b' →
  program b `prefix_of` program b'.
Proof.
  intros Hc Hrun.
  destruct c; try done;
    try (apply primitive_frame in Hrun as [w ->]; simpl; by eexists);
    destruct b as [stack consts st loc sz prog]; unfold_methods;
    try (destruct stack as [|l rest]; simpl in *);
    try case_match; simplify_eq; simpl; try done; by eexists.
Qed.

(** X5. The program is append-only: a sequence of builder calls without
    [stopLabels] leaves every instruction emitted before it in place, and
    only adds instructions after them. *)
Theorem calls_append_only cs b b' :
  CallStopLabels ∉ cs →
  perform_all cs b = Normal tt b' →
  program b `prefix_of` program b'.
Proof.
  revert b. induction cs as [|c cs IH]; intros b Hno; simpl.
  - unfold ret. by intros [= <-].
  - unfold bind. destruct (perform c b) as [[] b1|] eqn:Hc; [|done].
    intros Hcs. apply not_elem_of_cons in Hno as [Hne Hno].
    etrans; [by eapply perform_appends|by apply IH].
Qed.

Lemma patch_length_eq l p :
  patchable l (Program.next p) → length (Labels.patch l p) = length p.
Proof.
  intros [Hin _]. unfold Labels.sites in Hin.
  apply Forall_app in Hin as [Hj Hin]. apply Forall_app in Hin as [Hr Hi].
  rewrite Forall_fmap in Hj. rewrite Forall_fmap in Hr. rewrite Forall_fmap in Hi.
  assert (Hloop : ∀ A (f : Program.t → A → Program.t) (at_of : A → Z),
    (∀ q x, 0 ≤ at_of x → at_of x + 4 ≤ Z.of_nat (length q) →
            length (f q x) = length q) →
    ∀ xs q, length q = length p →
      Forall (λ x, 0 ≤ at_of x ∧ at_of x + 4 ≤ Program.next p) xs →
      length (foldl f q xs) = length p).
  { intros A f at_of Hf xs. induction xs as [|x xs IH]; intros q Hq Hall; simpl; [done|].
    apply Forall_cons in Hall as [[H0 H4] Hall]. apply IH; [|done].
    rewrite Hf; [done|done|]. unfold Program.next in H4. lia. }
  unfold Labels.patch.
  apply (Hloop _ _ Labels.i_at); [intros; by apply set_length_in| |done].
  apply (Hloop _ _ Labels.r_at); [intros; by apply set_length_in| |done].
  apply (Hloop _ _ Labels.j_at); [intros; by apply set_length_in|done|done].
Qed.

Lemma patch_other l p a :
  0 ≤ a → a + 4 ≤ Program.next p →
  Forall (λ s, 4 ≤ Z.abs (s - a)) (Labels.sites l) →
  Program.instruction (Labels.patch l p) a = Program.instruction p a.
Proof.
  intros H0 H4 Hsep. unfold Labels.sites in Hsep.
  apply Forall_app in Hsep as [Hj Hsep]. apply Forall_app in Hsep as [Hr Hi].
  rewrite Forall_fmap in Hj. rewrite Forall_fmap in Hr. rewrite Forall_fmap in Hi.
  unfold Labels.patch, Program.next in *.
  rewrite (loop_other (Labels.patch_iter l) Labels.i_at); try done.
  - rewrite (loop_other (Labels.patch_range l) Labels.r_at); try done.
    + rewrite (loop_other (Labels.patch_jump l) Labels.j_at); try done.
      * apply patch_jump_length.
      * intros. by apply instruction_set_ne.
    + apply patch_range_length.
    + intros. by apply instruction_set_ne.
    + etrans; [exact H4|]. apply inj_le, loop_length, patch_jump_length.
  - apply patch_iter_length.
  - intros. by apply instruction_set_ne.
  - etrans; [exact H4|]. apply inj_le.
    etrans; [|apply loop_length, patch_range_length].
    apply loop_length, patch_jump_length.
Qed.

(** X6. Closing a scope rewrites the instructions the scope recorded and
    nothing else: in a compilation, [stopLabels] keeps the length of the
    program, and every instruction that overlaps no recorded position reads
    as before. *)
Theorem stopLabels_rewrites_recorded_only env_constants program0 cs b l rest :
  compilation env_constants program0 cs = Normal tt b →
  labelsStack b = l :: rest →
  ∃ b', stopLabels b = Normal tt b' ∧
        length (program b') = length (program b) ∧
        ∀ a, 0 ≤ a → a + 4 ≤ Program.next (program b) →
             Forall (λ s, 4 ≤ Z.abs (s - a)) (Labels.sites l) →
             Program.instruction (program b') a = Program.instruction (program b) a.
Proof.
  intros Hc Hstack.
  apply compilation_steps in Hc as (_ & _ & Hp & _).
  destruct b as [stack consts st loc sz prog]. simpl in Hstack. subst stack.
  apply Forall_cons in Hp as [Hl _]. simpl in Hl.
  unfold_methods. eexists. split; [reflexivity|]. simpl. split.
  - by apply patch_length_eq.
  - intros a H0 H4 Hsep. by apply patch_other.
Qed.

End ScopeFacts.

Section BoundaryFacts.

Context {Constants Block : Type} `{!ConstantPool Constants Block}.

Implicit Types (b : BasicOpcodeBuilder Constants).

Lemma on_boundaries_grow st size size' l :
  size ≤ size' → scope_on_boundaries st size l → scope_on_boundaries st size' l.
Proof.
  intros Hle [Hlabels Hsites]. split.
  - eapply map_Forall_impl; [exact Hlabels|]. unfold on_boundary. simpl. intros; lia.
  - eapply Forall_impl; [exact Hsites|]. unfold on_boundary. simpl. intros; lia.
Qed.

Lemma on_boundaries_label st size l name :
  st < size → (size - st) `mod` 4 = 0 →
  scope_on_boundaries st size l →
  scope_on_boundaries st size (Labels.label l name size).
Proof.
  intros Hst Hmod [Hlabels Hsites]. split; [|done]. simpl.
  apply map_Forall_insert_2; [|done]. unfold on_boundary. lia.
Qed.

Lemma on_boundaries_record st size l l' l1 l2 :
  st < size → (size - st) `mod` 4 = 0 →
  Labels.labels l' = Labels.labels l →
  Labels.sites l = l1 ++ l2 → Labels.sites l' = l1 ++ size :: l2 →
  scope_on_boundaries st size l →
  scope_on_boundaries st (size + 4) l'.
Proof.
  intros Hst Hmod Hlabels Hl Hl' [Hls Hsites]. split.
  - rewrite Hlabels. eapply map_Forall_impl; [exact Hls|].
    unfold on_boundary. simpl. intros; lia.
  - rewrite Hl'. rewrite Hl in Hsites. apply Forall_app in Hsites as [H1 H2].
    apply Forall_app. split; [|apply Forall_cons; split].
    + eapply Forall_impl; [exact H1|]. unfold on_boundary. simpl. intros; lia.
    + unfold on_boundary. lia.
    + eapply Forall_impl; [exact H2|]. unfold on_boundary. simpl. intros; lia.
Qed.

Lemma add4_mod (x : Z) : x `mod` 4 = 0 → (x + 4) `mod` 4 = 0.
Proof.
  intros Hx. replace (x + 4) with (x + 1 * 4) by lia. by rewrite Z.mod_add.
Qed.

Ltac pushed_facts :=
  unfold Program.next, Program.current in *; simpl in *;
  try rewrite !length_app in *; simpl in *.

Lemma well_placed_grow b b' :
  well_placed b →
  start b' = start b → labelsStack b' = labelsStack b →
  (Program.next (program b') = Program.next (program b) ∨
   Program.next (program b') = Program.next (program b) + 4) →
  well_placed b'.
Proof.
  intros (Hstart & Hmod & Hpatch & Hscopes) Hs Hstack Hnext.
  unfold well_placed. rewrite Hs, Hstack.
  split; [destruct Hnext as [-> | ->]; lia|].
  split; [destruct Hnext as [-> | ->]; [done|]|].
  - replace (Program.next (program b) + 4 - start b)
      with (Program.next (program b) - start b + 4) by lia. by apply add4_mod.
  - split.
    + apply (scopes_patchable_grow b); [done| |done].
      unfold Program.next in Hnext. destruct Hnext; lia.
    + eapply Forall_impl; [exact Hscopes|]. simpl. intros l.
      apply on_boundaries_grow. destruct Hnext as [-> | ->]; lia.
Qed.

Lemma jump_on_boundaries st size l Target target :
  st < size → (size - st) `mod` 4 = 0 → scope_on_boundaries st size l →
  scope_on_boundaries st (size + 4) (Labels.jump l size Target target).
Proof.
  intros Hst Hmod.
  apply (on_boundaries_record st size l _ (Labels.j_at <$> Labels.jumps l)
    ((Labels.r_at <$> Labels.ranges l) ++ (Labels.i_at <$> Labels.iters l))); try done.
  unfold Labels.sites. simpl. by rewrite fmap_app, <- app_assoc.
Qed.

Lemma range_on_boundaries st size l Range start_ end_ :
  st < size → (size - st) `mod` 4 = 0 → scope_on_boundaries st size l →
  scope_on_boundaries st (size + 4) (Labels.range l size Range start_ end_).
Proof.
  intros Hst Hmod.
  apply (on_boundaries_record st size l _
    ((Labels.j_at <$> Labels.jumps l) ++ (Labels.r_at <$> Labels.ranges l))
    (Labels.i_at <$> Labels.iters l)); try done.
  - unfold Labels.sites. by rewrite app_assoc.
  - unfold Labels.sites. simpl. by rewrite fmap_app, <- !app_assoc.
Qed.

Lemma iter_on_boundaries st size l breaks start_ end_ :
  st < size → (size - st) `mod` 4 = 0 → scope_on_boundaries st size l →
  scope_on_boundaries st (size + 4) (Labels.iter l size breaks start_ end_).
Proof.
  intros Hst Hmod.
  apply (on_boundaries_record st size l _ (Labels.sites l) []); try done.
  - by rewrite app_nil_r.
  - unfold Labels.sites. simpl. by rewrite fmap_app, !app_assoc.
Qed.

(** A call that pushes an instruction and records it in the open scope. *)
Ltac recorded_case stack Hstart Hmod Hscopes Hp :=
  let l := fresh "l" in
  let rest := fresh "rest" in
  let Hl := fresh "Hl" in
  destruct stack as [|l rest]; simpl in *; simplify_eq;
  apply Forall_cons in Hscopes as [Hl Hscopes];
  unfold well_placed; simpl;
  rewrite pushed_current, pushed_next in *;
  split; [lia|]; split; [|split; [exact Hp|]];
  [ match goal with
    | |- (?x + 4 - ?s) `mod` 4 = 0 =>
        replace (x + 4 - s) with (x - s + 4) by lia; by apply add4_mod
    end
  | apply Forall_cons; split;
    [ first [ apply jump_on_boundaries | apply range_on_boundaries
            | apply iter_on_boundaries ]; (done || lia)
    | eapply Forall_impl; [exact Hscopes|]; simpl; intros ?;
      apply on_boundaries_grow; lia ] ].

Lemma perform_well_placed c b b' :
  perform c b = Normal tt b' → well_placed b → well_placed b'.
Proof.
  intros Hrun Hwp.
  pose proof Hwp as (Hstart & Hmod & Hpatch & Hscopes).
  pose proof (perform_step c b b' Hrun) as (_ & _ & Hp & _).
  specialize (Hp Hpatch).
  destruct c;
    try (apply primitive_frame in Hrun as [w ->];
         apply (well_placed_grow b); [done|done|done|];
         right; pushed_facts; lia);
    destruct b as [stack consts st loc sz prog]; unfold_methods.
  - (* local *)
    case_match; simplify_eq; eapply well_placed_grow; eauto.
  - simplify_eq. eapply well_placed_grow; eauto.
  - simplify_eq. eapply well_placed_grow; [exact Hwp|done|done|].
    right. pushed_facts. lia.
  - (* startLabels *)
    simplify_eq. unfold well_placed. simpl.
    split; [done|]. split; [done|]. split; [done|].
    apply Forall_cons. split; [|done].
    split; [apply map_Forall_empty|constructor].
  - (* stopLabels *)
    destruct stack as [|l rest]; simpl in *; simplify_eq.
    apply Forall_cons in Hpatch as [Hl Hrest].
    apply Forall_cons in Hscopes as [_ Hscopes].
    assert (Hsame : Program.next (Labels.patch l prog) = Program.next prog).
    { unfold Program.next. by rewrite patch_length_eq. }
    unfold well_placed. simpl. rewrite Hsame.
    split; [done|]. split; [done|]. split; [|done]. done.
  - (* label *)
    destruct stack as [|l rest]; simpl in *; simplify_eq.
    apply Forall_cons in Hscopes as [Hl Hscopes].
    unfold well_placed. simpl.
    split; [done|]. split; [done|]. split; [done|].
    apply Forall_cons. split; [|done].
    apply on_boundaries_label; [lia|done|done].
  - recorded_case stack Hstart Hmod Hscopes Hp.
  - recorded_case stack Hstart Hmod Hscopes Hp.
  - recorded_case stack Hstart Hmod Hscopes Hp.
  - recorded_case stack Hstart Hmod Hscopes Hp.
  - simplify_eq. eapply well_placed_grow; [exact Hwp|done|done|].
    right. pushed_facts. lia.
  - recorded_case stack Hstart Hmod Hscopes Hp.
  - simplify_eq. eapply well_placed_grow; [exact Hwp|done|done|].
    right. pushed_facts. lia.
  - recorded_case stack Hstart Hmod Hscopes Hp.
Qed.

Lemma perform_all_well_placed cs b b' :
  perform_all cs b = Normal tt b' → well_placed b → well_placed b'.
Proof.
  revert b. induction cs as [|c cs IH]; intros b; simpl.
  - unfold ret. by intros [= <-].
  - unfold bind. destruct (perform c b) as [[] b1|] eqn:Hc; [|done].
    intros Hcs Hwp. eapply IH; [exact Hcs|]. by eapply perform_well_placed.
Qed.

(** X7. Offsets stay on instruction boundaries. In any compilation, every
    label a scope holds and every position a scope recorded lies after the
    reserved slot, not past the end of the program, and a whole number of
    four-cell instructions from the start; a recorded position is the
    position of an instruction of the program. *)
Theorem offsets_on_instruction_boundaries env_constants program0 cs b :
  compilation env_constants program0 cs = Normal tt b →
  start b = Program.next program0 ∧
  (Program.next (program b) - start b) `mod` 4 = 0 ∧
  Forall (scope_on_boundaries (start b) (Program.next (program b))) (labelsStack b).
Proof.
  unfold compilation, constructor. unfold_methods. intros Hcs.
  pose proof (perform_all_steps _ _ _ Hcs) as (Hs & _).
  apply perform_all_well_placed in Hcs as (_ & Hmod & _ & Hscopes).
  - simpl in Hs. by rewrite Hs in *.
  - unfold well_placed. simpl. rewrite pushed_next.
    split; [lia|]. split; [|split; constructor].
    by replace (Program.next program0 + 4 - Program.next program0) with 4 by lia.
Qed.

End BoundaryFacts.

Section HelperFacts.

Context {Constants Block : Type} `{!ConstantPool Constants Block}.

Implicit Types (b : BasicOpcodeBuilder Constants).

(** A straight call in an open scope completes; the scope stays open and
    patchable, keeps what it recorded and the labels placed for the
    callback. *)
Lemma straight_step names c b l rest :
  straight names c = true →
  labelsStack b = l :: rest →
  patchable l (Program.next (program b)) →
  ∃ b' l', perform c b = Normal tt b' ∧ labelsStack b' = l' :: rest ∧
    patchable l' (Program.next (program b')) ∧
    (∀ name, name ∈ names → Labels.labels l' !! name = Labels.labels l !! name) ∧
    Labels.jumps l `prefix_of` Labels.jumps l' ∧
    Labels.ranges l `prefix_of` Labels.ranges l' ∧
    Labels.iters l `prefix_of` Labels.iters l' ∧
    program b `prefix_of` program b' ∧
    Forall (λ a, a ∈ Labels.sites l ∨ a = Program.next (program b)) (Labels.sites l').
Proof.
  destruct b as [stack consts st loc sz prog]. simpl.
  intros Hc -> Hl.
  assert (Hgrow : ∀ c1 c2 c3 c4,
    patchable l (Program.next (prog ++ [c1; c2; c3; c4]))).
  { intros. eapply patchable_grow; [exact Hl|]. rewrite pushed_next. lia. }
  destruct c; try done; try (destruct v; try done); unfold_methods;
    try case_match;
    (eexists _, _; split; [reflexivity|]; simpl; split; [reflexivity|]);
    (split;
     [ first [ done | by apply jump_patchable | by apply range_patchable
             | by apply iter_patchable | by apply Hgrow ]
     | split;
       [ intros nm Hin; simpl;
         first [ done
               | apply bool_decide_eq_true in Hc;
                 rewrite lookup_insert_ne; [done|]; by intros -> ]
       | simpl; split; [|split; [|split; [|split]]];
         try done; try (by apply prefix_app_r);
         rewrite ?pushed_current; apply Forall_forall; intros a;
         unfold Labels.sites; simpl; rewrite ?fmap_app; simpl;
         rewrite ?elem_of_app, ?list_elem_of_singleton; tauto ] ]).
Qed.

Lemma straight_run names cs b l rest :
  forallb (straight names) cs = true →
  labelsStack b = l :: rest →
  patchable l (Program.next (program b)) →
  ∃ b' l', perform_all cs b = Normal tt b' ∧ labelsStack b' = l' :: rest ∧
    patchable l' (Program.next (program b')) ∧
    (∀ name, name ∈ names → Labels.labels l' !! name = Labels.labels l !! name) ∧
    Labels.jumps l `prefix_of` Labels.jumps l' ∧
    Labels.ranges l `prefix_of` Labels.ranges l' ∧
    Labels.iters l `prefix_of` Labels.iters l' ∧
    program b `prefix_of` program b' ∧
    Forall (λ a, a ∈ Labels.sites l ∨ Program.next (program b) ≤ a) (Labels.sites l').
Proof.
  revert b l. induction cs as [|c cs IH]; intros b l Hcs Hstack Hl; simpl.
  - exists b, l. unfold ret. do 8 (split; [done|]).
    apply Forall_forall. intros a Ha. by left.
  - simpl in Hcs. apply andb_true_iff in Hcs as [Hc Hcs].
    destruct (straight_step names c b l rest Hc Hstack Hl)
      as (b1 & l1 & Hrun & Hstack1 & Hl1 & Hnames1 & Hj1 & Hr1 & Hi1 & Hp1 & Hs1).
    destruct (IH b1 l1 Hcs Hstack1 Hl1)
      as (b' & l' & Hrun' & Hstack' & Hl' & Hnames' & Hj' & Hr' & Hi' & Hp' & Hs').
    exists b', l'. unfold bind. rewrite Hrun.
    split; [done|]. split; [done|]. split; [done|]. split.
    + intros nm Hin. by rewrite Hnames', Hnames1.
    + split; [by trans (Labels.jumps l1)|].
      split; [by trans (Labels.ranges l1)|].
      split; [by trans (Labels.iters l1)|].
      split; [by trans (program b1)|].
      apply prefix_length in Hp1.
      rewrite Forall_forall in Hs1. rewrite Forall_forall in Hs'.
      apply Forall_forall. intros a Ha.
      destruct (Hs' a Ha) as [Hin|Hge].
      * destruct (Hs1 a Hin) as [?| ->]; [by left|right; lia].
      * right. unfold Program.next in *. lia.
Qed.

(** X8. [labelled] encloses what its callback emits: for a callback made
    of straight calls, the call completes, the label scopes are as before,
    and the [Enter] it put where the program ended names as its region the
    instructions from the one after [Enter] to the one before the final
    [Exit]. *)
Theorem labelled_encloses_body cs b :
  forallb (straight ["BEGIN"]) cs = true →
  ∃ b', labelled (λ _ _, perform_all cs) b = Normal tt b' ∧
    labelsStack b' = labelsStack b ∧
    Program.instruction (program b') (Program.next (program b)) =
      Some <$> instr Op.Enter (Program.next (program b) + 4)
                 (Program.next (program b') - 8) 0 ∧
    Program.instruction (program b') (Program.next (program b') - 4) =
      Some <$> instr Op.Exit 0 0 0.
Proof.
  intros Hcs. destruct b as [stack consts st loc sz prog].
  unfold labelled. unfold_methods. rewrite pushed_current, pushed_next.
  match goal with
  | |- context [perform_all cs ?s] =>
      destruct (straight_run ["BEGIN"] cs s
        (Labels.label (Labels.range Labels.new (Program.next prog) Op.Enter
           "BEGIN" "END") "BEGIN" (Program.next prog + 4)) stack Hcs eq_refl)
        as (b1 & l1 & Hrun & Hstack & Hl1 & Hnames & _ & Hranges & _ & _ & _)
  end.
  { simpl. rewrite <- (pushed_next prog (Program.COp Op.Enter) (Program.CNum 0)
      (Program.CNum 0) (Program.CNum 0)).
    rewrite <- (pushed_current prog (Program.COp Op.Enter) (Program.CNum 0)
      (Program.CNum 0) (Program.CNum 0)) at 1.
    apply label_patchable, range_patchable. by split. }
  rewrite Hrun. destruct b1 as [stack1 consts1 st1 loc1 sz1 prog1].
  simpl in *. subst stack1. simpl. clear Hrun.
  set (l2 := Labels.label l1 "END" (Program.next prog1)).
  set (p2 := prog1 ++ [Program.COp Op.Exit; Program.CNum 0; Program.CNum 0;
                       Program.CNum 0]).
  assert (Hl2 : patchable l2 (Program.next p2)).
  { apply label_patchable. eapply patchable_grow; [exact Hl1|].
    unfold p2. rewrite pushed_next. lia. }
  assert (Hlen : Program.next (Labels.patch l2 p2) = Program.next prog1 + 4).
  { unfold Program.next at 1. rewrite patch_length_eq by done.
    apply pushed_next. }
  eexists. split; [reflexivity|]. simpl. split; [done|]. rewrite Hlen. split.
  - pose (r := Labels.mkRange (Program.next prog) "BEGIN" "END" Op.Enter).
    assert (Hr : r ∈ Labels.ranges l2).
    { simpl. eapply elem_of_prefix; [|exact Hranges]. apply list_elem_of_here. }
    etrans; [exact (patched_range l2 (Program.next p2) p2 r Hl2 Hr)|].
    unfold range_written, Labels.lookup_arg, l2. simpl.
    rewrite lookup_insert_ne by done.
    rewrite Hnames by apply list_elem_of_here.
    rewrite !lookup_insert_eq. simpl.
    by replace (Program.next prog1 + 4 - 8) with (Program.next prog1 - 4) by lia.
  - replace (Program.next prog1 + 4 - 4) with (Program.next prog1) by lia.
    rewrite patch_other.
    + apply instruction_pushed.
    + unfold Program.next. lia.
    + unfold p2. rewrite pushed_next. lia.
    + destruct Hl1 as [Hin _]. eapply Forall_impl; [exact Hin|]. simpl. lia.
Qed.

(** X9. [iter] loops over what its callback emits: for a callback made of
    straight calls, the call completes, the label scopes are as before,
    [EnterList] and [Iterate] name the callback's instructions as their
    region, [Iterate] breaks out to the final [ExitList], and the [Jump]
    after the callback's [Exit] goes back to [Iterate]. *)
Theorem iter_loops_over_body cs b :
  forallb (straight ["ITER"; "BEGIN"]) cs = true →
  ∃ b', iter (λ _ _, perform_all cs) b = Normal tt b' ∧
    labelsStack b' = labelsStack b ∧
    let n := Program.next (program b) in
    let e := Program.next (program b') in
    Program.instruction (program b') n =
      Some <$> instr Op.EnterList (n + 8) (e - 16) 0 ∧
    Program.instruction (program b') (n + 4) =
      Some <$> instr Op.Iterate (e - 4) (n + 8) (e - 16) ∧
    Program.instruction (program b') (e - 12) = Some <$> instr Op.Exit 0 0 0 ∧
    Program.instruction (program b') (e - 8) = Some <$> instr Op.Jump (n + 4) 0 0 ∧
    Program.instruction (program b') (e - 4) = Some <$> instr Op.ExitList 0 0 0.
Proof.
  intros Hcs. destruct b as [stack consts st loc sz prog].
  unfold iter. unfold_methods. rewrite !pushed_current, !pushed_next.
  set (l0 := Labels.label (Labels.iter (Labels.label
    (Labels.range Labels.new (Program.next prog) Op.EnterList "BEGIN" "END")
    "ITER" (Program.next prog + 4)) (Program.next prog + 4) "BREAK" "BEGIN" "END")
    "BEGIN" (Program.next prog + 4 + 4)).
  match goal with
  | |- context [perform_all cs ?s] =>
      destruct (straight_run ["ITER"; "BEGIN"] cs s l0 stack Hcs eq_refl)
        as (b1 & l1 & Hrun & Hstack & Hl1 & Hnames & _ & Hranges & Hiters & _ & _)
  end.
  { simpl. unfold patchable, Labels.sites. simpl. split.
    - unfold Program.next. rewrite !length_app. simpl.
      repeat (apply Forall_cons; split; [lia|]). done.
    - repeat split; try done. repeat constructor. lia. }
  rewrite Hrun. destruct b1 as [stack1 consts1 st1 loc1 sz1 prog1].
  simpl in *. subst stack1. simpl. clear Hrun.
  rewrite !pushed_current, !pushed_next.
  set (e1 := Program.next prog1) in *.
  set (l2 := Labels.label (Labels.jump (Labels.label l1 "END" e1) (e1 + 4)
                Op.Jump "ITER") "BREAK" (e1 + 4 + 4)).
  set (p2 := ((prog1 ++ _) ++ _) ++ _).
  assert (Hnext : Program.next p2 = e1 + 12).
  { unfold p2. rewrite !pushed_next. unfold e1. lia. }
  assert (He1 : 0 ≤ e1) by (unfold e1, Program.next; lia).
  assert (Hl2 : patchable l2 (Program.next p2)).
  { rewrite Hnext. apply label_patchable.
    apply (patchable_grow _ (e1 + 4 + 4)); [|lia].
    eapply (patchable_record (Labels.label l1 "END" e1) _ (e1 + 4)
      (Labels.j_at <$> Labels.jumps l1)); [lia| |done|].
    - apply label_patchable. eapply patchable_grow; [exact Hl1|]. lia.
    - unfold Labels.sites. simpl. by rewrite fmap_app, <- app_assoc. }
  assert (Hsites : Forall (λ a, a + 4 ≤ e1 ∨ a = e1 + 4) (Labels.sites l2)).
  { destruct Hl1 as [Hin _]. unfold Labels.sites in *. simpl.
    rewrite fmap_app. simpl.
    apply Forall_app in Hin as [Hj Hin].
    apply Forall_app. split; [apply Forall_app; split|].
    - eapply Forall_impl; [exact Hj|]. simpl. lia.
    - apply Forall_singleton. lia.
    - eapply Forall_impl; [exact Hin|]. simpl. lia. }
  assert (Hlen : Program.next (Labels.patch l2 p2) = e1 + 12).
  { unfold Program.next at 1. rewrite patch_length_eq by done. exact Hnext. }
  assert (HITER : Labels.labels l2 !! "ITER" = Some (Program.next prog + 4)).
  { unfold l2. simpl. rewrite !lookup_insert_ne by done.
    rewrite Hnames by (apply list_elem_of_further, list_elem_of_here || set_solver).
    rewrite lookup_insert_ne by done. by rewrite lookup_insert_eq. }
  assert (HBEGIN : Labels.labels l2 !! "BEGIN" = Some (Program.next prog + 8)).
  { unfold l2. simpl. rewrite !lookup_insert_ne by done.
    rewrite Hnames by set_solver.
    rewrite lookup_insert_eq. f_equal. lia. }
  assert (HEND : Labels.labels l2 !! "END" = Some e1).
  { unfold l2. simpl. rewrite lookup_insert_ne by done. by rewrite lookup_insert_eq. }
  assert (HBREAK : Labels.labels l2 !! "BREAK" = Some (e1 + 8)).
  { unfold l2. simpl. rewrite lookup_insert_eq. f_equal. lia. }
  pose (r := Labels.mkRange (Program.next prog) "BEGIN" "END" Op.EnterList).
  assert (Hr : r ∈ Labels.ranges l2).
  { simpl. eapply elem_of_prefix; [|exact Hranges]. apply list_elem_of_here. }
  pose (i := Labels.mkIter (Program.next prog + 4) "BREAK" "BEGIN" "END").
  assert (Hi : i ∈ Labels.iters l2).
  { simpl. eapply elem_of_prefix; [|exact Hiters]. apply list_elem_of_here. }
  pose (j := Labels.mkJump (e1 + 4) "ITER" Op.Jump).
  assert (Hj : j ∈ Labels.jumps l2).
  { simpl. apply elem_of_app. right. apply list_elem_of_here. }
  eexists. split; [reflexivity|]. simpl. split; [done|]. rewrite Hlen.
  clearbody l2.
  split; [|split; [|split; [|split]]].
  - etrans; [exact (patched_range l2 (Program.next p2) p2 r Hl2 Hr)|].
    unfold range_written, Labels.lookup_arg. simpl. rewrite HBEGIN, HEND. simpl.
    by replace (e1 + 12 - 16) with (e1 - 4) by lia.
  - etrans; [exact (patched_iter l2 (Program.next p2) p2 i Hl2 Hi)|].
    unfold iter_written, Labels.lookup_arg. simpl. rewrite HBEGIN, HEND, HBREAK. simpl.
    replace (e1 + 12 - 16) with (e1 - 4) by lia.
    by replace (e1 + 12 - 4) with (e1 + 8) by lia.
  - replace (e1 + 12 - 12) with e1 by lia.
    rewrite patch_other.
    + unfold p2. rewrite !instruction_app_l
        by (rewrite ?length_app; simpl; unfold e1, Program.next; lia).
      apply instruction_pushed.
    + done.
    + lia.
    + eapply Forall_impl; [exact Hsites|]. simpl. lia.
  - replace (e1 + 12 - 8) with (e1 + 4) by lia.
    etrans; [exact (patched_jump l2 (Program.next p2) p2 j Hl2 Hj)|].
    unfold jump_written, Labels.lookup_arg. simpl. by rewrite HITER.
  - rewrite patch_other.
    + replace (e1 + 12 - 4) with (Program.next ((prog1 ++
        [Program.COp Op.Exit; Program.CNum 0; Program.CNum 0; Program.CNum 0]) ++
        [Program.COp Op.Jump; Program.CNum 0; Program.CNum 0; Program.CNum 0])).
      * apply instruction_pushed.
      * rewrite !pushed_next. unfold e1. lia.
    + lia.
    + lia.
    + eapply Forall_impl; [exact Hsites|]. simpl. lia.
Qed.

(** X10. [unit] is self-contained: for a callback made of straight calls,
    which may place labels and jump to them although no scope was open
    before, the call completes, the label scopes are as before, and every
    instruction the program held before the call reads as it did. *)
Theorem unit_keeps_earlier_instructions cs b :
  forallb (straight []) cs = true →
  ∃ b', unit_ (perform_all cs) b = Normal tt b' ∧
    labelsStack b' = labelsStack b ∧
    (length (program b) ≤ length (program b'))%nat ∧
    ∀ a, 0 ≤ a → a + 4 ≤ Program.next (program b) →
      Program.instruction (program b') a = Program.instruction (program b) a.
Proof.
  intros Hcs. destruct b as [stack consts st loc sz prog].
  unfold unit_. unfold_methods.
  match goal with
  | |- context [perform_all cs ?s] =>
      destruct (straight_run [] cs s Labels.new stack Hcs eq_refl)
        as (b1 & l1 & Hrun & Hstack & Hl1 & _ & _ & _ & _ & Hprefix & Hsites)
  end.
  { by split. }
  rewrite Hrun. destruct b1 as [stack1 consts1 st1 loc1 sz1 prog1].
  simpl in *. subst stack1. simpl.
  eexists. split; [reflexivity|]. simpl. split; [done|].
  rewrite patch_length_eq by done. split; [by apply prefix_length|].
  intros a H0 H4. destruct Hprefix as [added ->].
  rewrite patch_other.
  - apply instruction_app_l. unfold Program.next in H4. lia.
  - done.
  - unfold Program.next in *. rewrite length_app. lia.
  - eapply Forall_impl; [exact Hsites|]. simpl.
    intros s [Hin|Hge]; [by apply elem_of_nil in Hin|lia].
Qed.

End HelperFacts.

Section InvocationFacts.

Context {Constants Block : Type} `{!ConstantPool Constants Block}.
Variable parameters : Block → list Z.
Variable constants_array : Constants → list Z → Z * Constants.

Implicit Types (b : BasicOpcodeBuilder Constants).

Lemma with_program_same b : with_program (program b) b = b.
Proof. by destruct b. Qed.

Lemma with_program_twice p q b : with_program q (with_program p b) = with_program q b.
Proof. by destruct b. Qed.

Lemma pushed_instruction name op1 op2 op3 b :
  push name op1 op2 op3 b =
    Normal (Program.next (program b)) (with_program (program b ++ instr name op1 op2 op3) b).
Proof. by destruct b. Qed.

Lemma pop_excess_run n b :
  pop_excess n b =
    Normal tt (with_program (program b ++ concat (replicate n (instr Op.Pop 0 0 0))) b).
Proof.
  revert b. induction n as [|n IH]; intros b.
  - simpl. unfold ret. by rewrite app_nil_r, with_program_same.
  - cbn [pop_excess replicate concat]. unfold bind, pop.
    rewrite pushed_instruction, IH. destruct b. simpl. by rewrite <- app_assoc.
Qed.

Lemma bind_arguments_on_stack params (k : nat) b :
  (k ≤ length params)%nat →
  bind_arguments None params k b =
    Normal tt (with_program (program b ++
      concat ((λ s : Z, instr Op.SetVariable s 0 0) <$> reverse (take k params))) b).
Proof.
  revert b. induction k as [|k IH]; intros b Hk.
  - simpl. unfold ret. by rewrite app_nil_r, with_program_same.
  - destruct (lookup_lt_is_Some_2 params k) as [x Hx]; [lia|].
    rewrite (take_S_r _ _ _ Hx), reverse_snoc.
    cbn [bind_arguments]. rewrite Hx. unfold bind, ret, setVariable, bind, ret.
    rewrite pushed_instruction, IH by lia. destruct b. simpl.
    by rewrite <- app_assoc.
Qed.

(** X11. [invokeStatic] with the arguments on the stack: the arguments past
    the block's parameters are popped first, the others are bound to the
    parameters from the last to the first inside a child scope, and the
    scope is opened and closed only when the count of arguments to bind is
    not 0; a negative count opens and closes a scope that binds nothing.
    Pops and bindings together are as many as the arguments. *)
Theorem invokeStatic_on_stack (_block : Block) (numArgs : Z) b :
  let params := parameters _block in
  let argSize := Z.min (Z.of_nat (length params)) numArgs in
  let excess := Z.max (numArgs - Z.of_nat (length params)) 0 in
  let interned := constants_block (constants b) _block in
  invokeStatic parameters _block (ArgCount numArgs) b =
    Normal tt (with_program
      (program b ++
       concat (replicate (Z.to_nat excess) (instr Op.Pop 0 0 0)) ++
       (if decide (argSize = 0) then instr Op.InvokeStatic interned.1 0 0
        else instr Op.ChildScope 0 0 0 ++
             concat ((λ s : Z, instr Op.SetVariable s 0 0) <$>
                       reverse (take (Z.to_nat argSize) params)) ++
             instr Op.InvokeStatic interned.1 0 0 ++
             instr Op.PopScope 0 0 0))
      (with_constants interned.2 b)) ∧
  (Z.to_nat excess + Z.to_nat argSize)%nat = Z.to_nat numArgs.
Proof.
  intros params argSize excess interned. split; [|lia].
  unfold invokeStatic. fold params. cbv zeta. fold argSize excess.
  unfold bind at 1. rewrite pop_excess_run.
  destruct (decide (argSize = 0)) as [Hzero|Hbind].
  - unfold bind, ret, intern. rewrite pushed_instruction. destruct b. simpl.
    by rewrite <- app_assoc.
  - unfold bind, ret, pushChildScope, popScope, intern, bind, ret.
    rewrite pushed_instruction, bind_arguments_on_stack by lia.
    rewrite !pushed_instruction. destruct b. simpl.
    by rewrite <- !app_assoc.
Qed.

Lemma bind_arguments_take fs params (n k : nat) b :
  (k ≤ n)%nat →
  bind_arguments (Some (take n fs)) params k b = bind_arguments (Some fs) params k b.
Proof.
  revert b. induction k as [|k IH]; intros b Hk; [done|].
  cbn [bind_arguments]. rewrite lookup_take_lt by lia.
  set (compile_argument := match fs !! k with Some f => f | None => _ end).
  unfold bind. destruct (compile_argument b) as [[] b1|]; [|done].
  destruct (setVariable _ b1) as [[] b2|]; [|done].
  apply IH. lia.
Qed.

(** X12. [invokeStatic] with callbacks compiles no more arguments than the
    block has parameters: the callbacks past the parameters are never
    called, and nothing is emitted in their place. *)
Theorem invokeStatic_drops_extra_callbacks (_block : Block)
    (fs : list (M (BasicOpcodeBuilder Constants) unit)) b :
  invokeStatic parameters _block (ArgCallbacks fs) b =
    invokeStatic parameters _block
      (ArgCallbacks (take (length (parameters _block)) fs)) b.
Proof.
  unfold invokeStatic. cbv zeta.
  rewrite length_take.
  replace (Z.min (Z.of_nat (length (parameters _block)))
             (Z.of_nat (length (parameters _block) `min` length fs)))
    with (Z.min (Z.of_nat (length (parameters _block))) (Z.of_nat (length fs)))
    by lia.
  unfold bind. destruct (pop_excess _ b) as [[] b1|]; [|done].
  destruct (decide _) as [Hzero|Hbind]; [done|].
  destruct (pushChildScope b1) as [[] b2|]; [|done].
  rewrite bind_arguments_take by lia. done.
Qed.

Lemma intern_names_run (_names : list string) b :
  ∃ handles c, intern_names _names b = Normal handles (with_constants c b).
Proof.
  revert b. induction _names as [|n rest IH]; intros b.
  - exists [], (constants b). simpl. unfold ret. by destruct b.
  - cbn [intern_names]. unfold bind, string_, intern.
    destruct (IH (with_constants (constants_string (constants b) n).2 b))
      as (handles & c & ->).
    eexists _, c. unfold ret. by destruct b.
Qed.

(** X13. The three methods that tell the VM which blocks an invocation has
    encode it alike: bit 0 of the flag operand says whether there is a
    default block and bit 1 whether there is an inverse block;
    [createComponent] has the flag as its first operand, [pushBlocks] and
    [pushReifiedArgs] as their third, and [pushBlocks] leaves 0 as the
    handle of a block that is missing. *)
Theorem presence_flags (state positional : Z) (_names : list string)
    (hasDefault hasInverse : bool) (_default inverse : option Block) b :
  (∃ flag : Z,
     createComponent state hasDefault hasInverse b =
       Normal tt (with_program (program b ++ instr Op.CreateComponent flag state 0) b) ∧
     Z.testbit flag 0 = hasDefault ∧ Z.testbit flag 1 = hasInverse) ∧
  (∃ (flag defaultBlock inverseBlock : Z) b',
     pushBlocks _default inverse b = Normal tt b' ∧
     program b' = program b ++ instr Op.PushBlocks defaultBlock inverseBlock flag ∧
     Z.testbit flag 0 = bool_decide (is_Some _default) ∧
     Z.testbit flag 1 = bool_decide (is_Some inverse) ∧
     (_default = None → defaultBlock = 0) ∧ (inverse = None → inverseBlock = 0)) ∧
  (∃ (flag names : Z) b',
     pushReifiedArgs constants_array positional _names hasDefault hasInverse b =
       Normal tt b' ∧
     program b' = program b ++ instr Op.PushReifiedArgs positional names flag ∧
     Z.testbit flag 0 = hasDefault ∧ Z.testbit flag 1 = hasInverse).
Proof.
  split; [|split].
  - destruct b, hasDefault, hasInverse; eexists; (split; [reflexivity|]); by split.
  - destruct b, _default as [d|], inverse as [i|];
      unfold pushBlocks, block, intern, bind, ret;
      cbn [fst snd]; rewrite pushed_instruction; eexists _, _, _, _;
      (split; [reflexivity|]); simpl;
      (split; [reflexivity|]); repeat split; try done.
  - unfold pushReifiedArgs, names_, bind at 1 2.
    destruct (intern_names_run _names b) as (handles & c & ->).
    unfold intern, bind, ret. rewrite pushed_instruction.
    destruct b, hasDefault, hasInverse; eexists _, _, _;
      (split; [reflexivity|]); simpl;
      (split; [reflexivity|]); by split.
Qed.

(** X14. The values [primitive] encodes without the constant pool can be
    told apart in the program: on an integer of thirty bits, a boolean,
    [null] or [undefined], [primitive] appends one instruction and leaves
    the pool alone, and two such values that give the same operand are the
    same value. *)
Theorem plain_primitives_distinct (v1 v2 : Js.value) b :
  plain_primitive v1 = true → plain_primitive v2 = true →
  ∃ w1 w2 : Z,
    primitive v1 b = Normal tt (with_program (program b ++ instr Op.Primitive w1 0 0) b) ∧
    primitive v2 b = Normal tt (with_program (program b ++ instr Op.Primitive w2 0 0) b) ∧
    (w1 = w2 → v1 = v2).
Proof.
  assert (Henc : ∀ v, plain_primitive v = true →
    ∃ (flag p w : Z),
      primitive v b = Normal tt (with_program (program b ++ instr Op.Primitive w 0 0) b) ∧
      operand_tag w = flag ∧ operand_payload w = p ∧
      match v with
      | Js.VNumber (Js.Int n) => flag = 0 ∧ p = n
      | Js.VBoolean x => flag = 2 ∧ p = (if x then 1 else 0)
      | Js.VNull => flag = 2 ∧ p = 2
      | Js.VUndefined => flag = 2 ∧ p = 3
      | _ => False
      end).
  { intros v Hv. destruct v as [[n|]|s|x| | | | |]; try done.
    - simpl in Hv. apply andb_true_iff in Hv as [Hlo Hhi].
      apply Z.leb_le in Hlo. apply Z.ltb_lt in Hhi.
      destruct (pack_tag_payload 0 n) as (w & Hw & Htag & Hpay); [lia|lia|].
      exists 0, n, w. unfold primitive, bind, ret. simpl. rewrite Hw.
      by destruct b.
    - destruct (pack_tag_payload 2 (if x then 1 else 0)) as (w & Hw & Htag & Hpay);
        [lia|destruct x; lia|].
      exists 2, (if x then 1 else 0), w. unfold primitive, bind, ret. simpl.
      unfold Js.of_bool. rewrite Hw. by destruct b.
    - destruct (pack_tag_payload 2 2) as (w & Hw & Htag & Hpay); [lia|lia|].
      exists 2, 2, w. unfold primitive, bind, ret. simpl. rewrite Hw.
      by destruct b.
    - destruct (pack_tag_payload 2 3) as (w & Hw & Htag & Hpay); [lia|lia|].
      exists 2, 3, w. unfold primitive, bind, ret. simpl. rewrite Hw.
      by destruct b. }
  intros Hv1 Hv2.
  destruct (Henc v1 Hv1) as (f1 & p1 & w1 & Hrun1 & Htag1 & Hpay1 & Hcode1).
  destruct (Henc v2 Hv2) as (f2 & p2 & w2 & Hrun2 & Htag2 & Hpay2 & Hcode2).
  exists w1, w2. split; [done|]. split; [done|]. intros ->.
  rewrite Htag1 in Htag2. rewrite Hpay1 in Hpay2.
  destruct v1 as [[n1|]|s1|x1| | | | |]; try done;
    destruct v2 as [[n2|]|s2|x2| | | | |]; try done;
    destruct Hcode1 as [Hf1 Hp1]; destruct Hcode2 as [Hf2 Hp2];
    try destruct x1; try destruct x2;
    first [ done | exfalso; lia | do 2 f_equal; lia ].
Qed.

End InvocationFacts.

Section ReservedFacts.

Context {Constants Block : Type} `{!ConstantPool Constants Block}.

Implicit Types (b : BasicOpcodeBuilder Constants).

Lemma separated_app_r (l1 l2 : list Z) : separated (l1 ++ l2) → separated l2.
Proof. induction l1 as [|x l1 IH]; simpl; [done|]. intros [_ Hsep]. by apply IH. Qed.

Lemma separated_app_cross (l1 l2 : list Z) a :
  separated (l1 ++ l2) → a ∈ l2 → Forall (λ s, 4 ≤ Z.abs (s - a)) l1.
Proof.
  induction l1 as [|x l1 IH]; simpl; intros Hsep Ha; [constructor|].
  destruct Hsep as [Hx Hsep]. apply Forall_cons. split; [|by apply IH].
  apply Forall_app in Hx as [_ Hx]. rewrite Forall_forall in Hx.
  specialize (Hx a Ha). lia.
Qed.

Lemma patchable_sites l size :
  patchable l size →
  Forall (λ j, 0 ≤ Labels.j_at j ∧ Labels.j_at j + 4 ≤ size) (Labels.jumps l) ∧
  Forall (λ r, 0 ≤ Labels.r_at r ∧ Labels.r_at r + 4 ≤ size) (Labels.ranges l) ∧
  Forall (λ i, 0 ≤ Labels.i_at i ∧ Labels.i_at i + 4 ≤ size) (Labels.iters l).
Proof.
  intros [Hin _]. unfold Labels.sites in Hin.
  apply Forall_app in Hin as [Hj Hin]. apply Forall_app in Hin as [Hr Hi].
  rewrite Forall_fmap in Hj. rewrite Forall_fmap in Hr. rewrite Forall_fmap in Hi.
  done.
Qed.

(** Appending keeps the placeholders of a scope. *)
Lemma scope_reserved_app p q l :
  patchable l (Program.next p) → scope_reserved p l → scope_reserved (p ++ q) l.
Proof.
  intros (Hj & Hr & Hi)%patchable_sites (Rj & Rr & Ri).
  unfold scope_reserved, placeholder, Program.next in *.
  rewrite Forall_forall in Hj. rewrite Forall_forall in Hr. rewrite Forall_forall in Hi.
  rewrite Forall_forall in Rj. rewrite Forall_forall in Rr. rewrite Forall_forall in Ri.
  repeat split; apply Forall_forall; intros x Hx.
  - rewrite instruction_app_l; [by apply Rj|by apply Hj].
  - rewrite instruction_app_l; [by apply Rr|by apply Hr].
  - rewrite instruction_app_l; [by apply Ri|by apply Hi].
Qed.

(** Patching one scope keeps the placeholders of a scope it is separated
    from. *)
Lemma scope_reserved_patch p inner l :
  patchable l (Program.next p) →
  (∀ a, a ∈ Labels.sites l → Forall (λ s, 4 ≤ Z.abs (s - a)) (Labels.sites inner)) →
  scope_reserved p l → scope_reserved (Labels.patch inner p) l.
Proof.
  intros (Hj & Hr & Hi)%patchable_sites Hsep (Rj & Rr & Ri).
  unfold scope_reserved, placeholder in *. unfold Labels.sites in Hsep.
  rewrite Forall_forall in Hj. rewrite Forall_forall in Hr. rewrite Forall_forall in Hi.
  rewrite Forall_forall in Rj. rewrite Forall_forall in Rr. rewrite Forall_forall in Ri.
  repeat split; apply Forall_forall; intros x Hx.
  - rewrite patch_other; [by apply Rj|by apply Hj|by apply Hj|].
    apply Hsep. apply elem_of_app. left. by apply list_elem_of_fmap_2.
  - rewrite patch_other; [by apply Rr|by apply Hr|by apply Hr|].
    apply Hsep. apply elem_of_app. right. apply elem_of_app. left.
    by apply list_elem_of_fmap_2.
  - rewrite patch_other; [by apply Ri|by apply Hi|by apply Hi|].
    apply Hsep. apply elem_of_app. right. apply elem_of_app. right.
    by apply list_elem_of_fmap_2.
Qed.

Lemma stack_reserved_app p q (stack : list Labels.t) :
  Forall (λ l, patchable l (Program.next p)) stack →
  Forall (scope_reserved p) stack → Forall (scope_reserved (p ++ q)) stack.
Proof.
  intros Hp Hr. rewrite Forall_forall in Hp. rewrite Forall_forall in Hr.
  apply Forall_forall. intros l Hl. apply scope_reserved_app; [by apply Hp|by apply Hr].
Qed.

Lemma all_sites_in_program (stack : list Labels.t) size :
  Forall (λ l, patchable l size) stack →
  Forall (λ a, a + 4 ≤ size) (all_sites stack).
Proof.
  induction stack as [|l stack IH]; intros Hp; [constructor|].
  apply Forall_cons in Hp as [[Hin _] Hp]. unfold all_sites. simpl.
  apply Forall_app. split; [|by apply IH].
  eapply Forall_impl; [exact Hin|]. simpl. lia.
Qed.

Lemma all_sites_elem (stack : list Labels.t) l a :
  l ∈ stack → a ∈ Labels.sites l → a ∈ all_sites stack.
Proof.
  induction stack as [|x stack IH]; intros Hl Ha; [by apply elem_of_nil in Hl|].
  unfold all_sites. simpl. apply elem_of_app.
  apply elem_of_cons in Hl as [->|Hl]; [by left|right; by apply IH].
Qed.

(** Recording the instruction just pushed keeps the recorded positions
    apart. *)
Lemma all_sites_record l l' rest l1 l2 size :
  Labels.sites l = l1 ++ l2 → Labels.sites l' = l1 ++ size :: l2 →
  Forall (λ l, patchable l size) (l :: rest) →
  separated (all_sites (l :: rest)) → separated (all_sites (l' :: rest)).
Proof.
  intros Hl Hl' Hp Hsep. apply all_sites_in_program in Hp.
  unfold all_sites in *. simpl in *. rewrite Hl in Hsep, Hp. rewrite Hl'.
  rewrite <- app_assoc in Hsep, Hp. rewrite <- app_assoc, <- app_comm_cons.
  apply separated_insert; [done|].
  eapply Forall_impl; [exact Hp|]. simpl. lia.
Qed.

Lemma jump_sites_recorded l rest size Target target :
  Forall (λ l, patchable l size) (l :: rest) →
  separated (all_sites (l :: rest)) →
  separated (all_sites (Labels.jump l size Target target :: rest)).
Proof.
  apply (all_sites_record l _ rest (Labels.j_at <$> Labels.jumps l)
    ((Labels.r_at <$> Labels.ranges l) ++ (Labels.i_at <$> Labels.iters l))); [done|].
  unfold Labels.sites. simpl. by rewrite fmap_app, <- app_assoc.
Qed.

Lemma range_sites_recorded l rest size Range start_ end_ :
  Forall (λ l, patchable l size) (l :: rest) →
  separated (all_sites (l :: rest)) →
  separated (all_sites (Labels.range l size Range start_ end_ :: rest)).
Proof.
  apply (all_sites_record l _ rest
    ((Labels.j_at <$> Labels.jumps l) ++ (Labels.r_at <$> Labels.ranges l))
    (Labels.i_at <$> Labels.iters l)).
  - unfold Labels.sites. by rewrite app_assoc.
  - unfold Labels.sites. simpl. by rewrite fmap_app, <- !app_assoc.
Qed.

Lemma iter_sites_recorded l rest size breaks start_ end_ :
  Forall (λ l, patchable l size) (l :: rest) →
  separated (all_sites (l :: rest)) →
  separated (all_sites (Labels.iter l size breaks start_ end_ :: rest)).
Proof.
  apply (all_sites_record l _ rest (Labels.sites l) []).
  - by rewrite app_nil_r.
  - unfold Labels.sites. simpl. by rewrite fmap_app, !app_assoc.
Qed.

(** The instruction just pushed is a placeholder, and the scope that
    records it keeps its others. *)
Lemma jump_reserved p l Target target :
  patchable l (Program.next p) → scope_reserved p l →
  scope_reserved (p ++ instr Target 0 0 0) (Labels.jump l (Program.next p) Target target).
Proof.
  intros Hp Hr. destruct (scope_reserved_app p (instr Target 0 0 0) l Hp Hr)
    as (Rj & Rr & Ri).
  split; [|done]. simpl. apply Forall_app. split; [done|].
  apply Forall_singleton. apply instruction_pushed.
Qed.

Lemma range_reserved p l Range start_ end_ :
  patchable l (Program.next p) → scope_reserved p l →
  scope_reserved (p ++ instr Range 0 0 0)
    (Labels.range l (Program.next p) Range start_ end_).
Proof.
  intros Hp Hr. destruct (scope_reserved_app p (instr Range 0 0 0) l Hp Hr)
    as (Rj & Rr & Ri).
  split; [done|]. split; [|done]. simpl. apply Forall_app. split; [done|].
  apply Forall_singleton. apply instruction_pushed.
Qed.

Lemma iter_reserved p l breaks start_ end_ :
  patchable l (Program.next p) → scope_reserved p l →
  scope_reserved (p ++ instr Op.Iterate 0 0 0)
    (Labels.iter l (Program.next p) breaks start_ end_).
Proof.
  intros Hp Hr. destruct (scope_reserved_app p (instr Op.Iterate 0 0 0) l Hp Hr)
    as (Rj & Rr & Ri).
  split; [done|]. split; [done|]. simpl. apply Forall_app. split; [done|].
  apply Forall_singleton. apply instruction_pushed.
Qed.

(** A call that pushes an instruction and records it in the open scope. *)
Ltac reserved_case stack Hp Hsep Hres :=
  let l := fresh "l" in
  let rest := fresh "rest" in
  let Hl := fresh "Hl" in
  destruct stack as [|l rest]; simpl in *; simplify_eq;
  rewrite pushed_current;
  split;
  [ first [ by apply jump_sites_recorded | by apply range_sites_recorded
          | by apply iter_sites_recorded ]
  | apply Forall_cons in Hp as [Hl Hp]; apply Forall_cons in Hres as [? Hres];
    apply Forall_cons; split;
    [ first [ by apply jump_reserved | by apply range_reserved | by apply iter_reserved ]
    | by apply stack_reserved_app ] ].

Lemma perform_reserved c b b' :
  perform c b = Normal tt b' → scopes_reserved b → scopes_reserved b'.
Proof.
  intros Hrun (Hp & Hsep & Hres).
  pose proof (perform_step c b b' Hrun) as (_ & _ & Hp' & _).
  split; [by apply Hp'|]. clear Hp'. unfold scopes_patchable in Hp.
  destruct c;
    try (apply primitive_frame in Hrun as [w ->]; simpl;
         split; [done|]; by apply stack_reserved_app);
    destruct b as [stack consts st loc sz prog]; unfold_methods.
  - destruct (Z.ltb_spec sz (loc + 1)); by simplify_eq.
  - by simplify_eq.
  - simplify_eq. simpl. split; [done|]. by apply stack_reserved_app.
  - (* startLabels *)
    simplify_eq. simpl. split; [done|]. apply Forall_cons. split; [|done].
    by repeat split.
  - (* stopLabels *)
    destruct stack as [|l rest]; simpl in *; simplify_eq. simpl.
    unfold all_sites in Hsep. simpl in Hsep.
    apply Forall_cons in Hp as [Hl Hp]. apply Forall_cons in Hres as [_ Hres].
    split; [by eapply separated_app_r|].
    rewrite Forall_forall in Hp. rewrite Forall_forall in Hres.
    apply Forall_forall. intros outer Houter.
    apply scope_reserved_patch; [by apply Hp| |by apply Hres].
    intros a Ha. eapply separated_app_cross; [exact Hsep|].
    by eapply all_sites_elem.
  - (* label *)
    destruct stack as [|l rest]; simpl in *; simplify_eq. simpl.
    split; [done|]. apply Forall_cons in Hres as [Hl Hres].
    apply Forall_cons. by split.
  - reserved_case stack Hp Hsep Hres.
  - reserved_case stack Hp Hsep Hres.
  - reserved_case stack Hp Hsep Hres.
  - reserved_case stack Hp Hsep Hres.
  - simplify_eq. simpl. split; [done|]. by apply stack_reserved_app.
  - reserved_case stack Hp Hsep Hres.
  - simplify_eq. simpl. split; [done|]. by apply stack_reserved_app.
  - reserved_case stack Hp Hsep Hres.
Qed.

Lemma perform_all_reserved cs b b' :
  perform_all cs b = Normal tt b' → scopes_reserved b → scopes_reserved b'.
Proof.
  revert b. induction cs as [|c cs IH]; intros b; simpl.
  - unfold ret. by intros [= <-].
  - unfold bind. destruct (perform c b) as [[] b1|] eqn:Hc; [|done].
    intros Hcs Hres. eapply IH; [exact Hcs|]. by eapply perform_reserved.
Qed.

(** X15. A recorded instruction stays as it was reserved until its own
    scope is closed. In any compilation, the open scopes claim
    instructions of the program, no instruction twice, whether in one scope
    or in two, and every claimed instruction still is its opcode with three
    zero operands: closing an inner scope does not touch what an outer
    scope recorded. *)
Theorem recorded_instructions_stay_reserved env_constants program0 cs b :
  compilation env_constants program0 cs = Normal tt b →
  separated (all_sites (labelsStack b)) ∧
  Forall (scope_reserved (program b)) (labelsStack b).
Proof.
  unfold compilation, constructor. unfold_methods. intros Hcs.
  apply perform_all_reserved in Hcs as (_ & Hsep & Hres); [done|].
  split; [constructor|]. split; [done|constructor].
Qed.

End ReservedFacts.

Section CompletionFacts.

Context {Constants Block : Type} `{!ConstantPool Constants Block}.

Implicit Types (b : BasicOpcodeBuilder Constants).




End CompletionFacts.

(** ** The further properties on concrete compilations *)

Lemma fault_leaves_reserved_instruction_witness :
  labelsStack Examples.faulted = [] ∧
  ∃ op, program Examples.faulted = program Examples.fresh ++ instr op 0 0 0.
Proof.
  apply (fault_leaves_reserved_instruction (CallJump "END") Examples.fresh
    "bug: not in a label stack" Examples.faulted); vm_compute; reflexivity.
Defined.

Lemma forward_reference_resolved_witness :
  ∃ b', (label "MISSING" ;;; stopLabels) Examples.dangling_builder = Normal tt b' ∧
        Program.get (program b') 5 = Some (Program.CNum 16).
Proof.
  destruct (forward_reference_resolved ListPool.empty [] Examples.dangling_calls
    Examples.dangling_builder Examples.dangling_scope []
    (Labels.mkJump 4 "MISSING" Op.Jump)) as (b' & Hrun & _ & _ & Hget);
    [vm_compute; reflexivity|reflexivity|apply list_elem_of_here|].
  exists b'. split; [exact Hrun|exact Hget].
Defined.

Lemma calls_append_only_witness :
  program Examples.fresh `prefix_of` program Examples.loop_builder.
Proof.
  apply (calls_append_only Examples.loop_calls Examples.fresh Examples.loop_builder);
    [|vm_compute; reflexivity].
  unfold Examples.loop_calls. intros Hin.
  repeat (apply elem_of_cons in Hin as [Hin|Hin]; [discriminate Hin|]).
  by apply elem_of_nil in Hin.
Defined.

Lemma stopLabels_rewrites_recorded_only_witness :
  ∃ b', stopLabels Examples.loop_builder = Normal tt b' ∧
        Program.instruction (program b') 12 =
          Program.instruction (program Examples.loop_builder) 12.
Proof.
  destruct (stopLabels_rewrites_recorded_only ListPool.empty [] Examples.loop_calls
    Examples.loop_builder Examples.loop_scope []) as (b' & Hstop & _ & Hkeep);
    [vm_compute; reflexivity|reflexivity|].
  exists b'. split; [exact Hstop|]. apply Hkeep; [lia|vm_compute; discriminate|].
  repeat constructor; vm_compute; discriminate.
Defined.

Lemma offsets_on_instruction_boundaries_witness :
  Forall (scope_on_boundaries 0 28) (labelsStack Examples.loop_builder).
Proof.
  destruct (offsets_on_instruction_boundaries ListPool.empty [] Examples.loop_calls
    Examples.loop_builder) as (_ & _ & Hscopes); [vm_compute; reflexivity|].
  exact Hscopes.
Defined.

Lemma labelled_encloses_body_witness :
  ∃ b', labelled (λ _ _, perform_all Examples.body_calls) Examples.fresh = Normal tt b' ∧
        Program.instruction (program b') 4 =
          Some <$> instr Op.Enter 8 (Program.next (program b') - 8) 0.
Proof.
  destruct (labelled_encloses_body Examples.body_calls Examples.fresh)
    as (b' & Hrun & _ & Henter & _); [reflexivity|].
  exists b'. split; [exact Hrun|exact Henter].
Defined.

Lemma iter_loops_over_body_witness :
  ∃ b', iter (λ _ _, perform_all Examples.body_calls) Examples.fresh = Normal tt b' ∧
        Program.instruction (program b') (Program.next (program b') - 8) =
          Some <$> instr Op.Jump 8 0 0.
Proof.
  destruct (iter_loops_over_body Examples.body_calls Examples.fresh)
    as (b' & Hrun & _ & _ & _ & _ & Hjump & _); [reflexivity|].
  exists b'. split; [exact Hrun|exact Hjump].
Defined.

Lemma unit_keeps_earlier_instructions_witness :
  ∃ b', unit_ (perform_all Examples.body_calls) Examples.loop_builder = Normal tt b' ∧
        Program.instruction (program b') 4 =
          Program.instruction (program Examples.loop_builder) 4.
Proof.
  destruct (unit_keeps_earlier_instructions Examples.body_calls Examples.loop_builder)
    as (b' & Hrun & _ & _ & Hkeep); [reflexivity|].
  exists b'. split; [exact Hrun|]. apply Hkeep; [lia|vm_compute; discriminate].
Defined.

Lemma plain_primitives_distinct_witness :
  ∃ w1 w2 : Z,
    primitive (Js.VBoolean true) Examples.fresh =
      Normal tt (with_program (program Examples.fresh ++ instr Op.Primitive w1 0 0)
                   Examples.fresh) ∧
    primitive (Js.VNumber 1) Examples.fresh =
      Normal tt (with_program (program Examples.fresh ++ instr Op.Primitive w2 0 0)
                   Examples.fresh) ∧
    (w1 = w2 → Js.VBoolean true = Js.VNumber 1).
Proof.
  apply (plain_primitives_distinct (Js.VBoolean true) (Js.VNumber 1) Examples.fresh);
    reflexivity.
Defined.

Lemma recorded_instructions_stay_reserved_witness :
  Forall (scope_reserved (program Examples.nested_builder))
    (labelsStack Examples.nested_builder).
Proof.
  apply (recorded_instructions_stay_reserved ListPool.empty []
    Examples.nested_calls Examples.nested_builder).
  vm_compute; reflexivity.
Defined.
